(** * predict.py: the census-income pipeline

    A shallow embedding of the parts of [predict.py] that carry the
    preprocessing pipeline: the metadata dictionary [meta], the two custom
    transformers [EncodeCategorical] and [ImputeCategorical], the interactive
    [predict] loop and the [__main__] block that wires them together.  The
    helpers [dump_model] and [load_model] only open a file and call [pickle];
    they have no counterpart here.

    The script is Python 2 on top of pandas, numpy and scikit-learn (0.17 to
    0.19: it imports [sklearn.preprocessing.Imputer] and
    [sklearn.datasets.base.Bunch]).  What the script calls in those libraries
    ([LabelEncoder], [Imputer], [Pipeline], [np.unique], [np.searchsorted],
    [Series.unique], the [float64] conversion) is modelled next to the code
    that calls it, each with a comment naming the library routine it stands
    for. *)

From Stdlib Require Import ZArith Lia Ascii String List.
From stdpp Require Import base option list sorting strings gmap.

Open Scope string_scope.
Open Scope nat_scope.
Open Scope list_scope.
Open Scope stdpp_scope.

(** ** Cells, series and data frames *)

(** A cell of a data frame: a number or a Python [str].  The encoders emit
    integer codes and the imputer emits [float64] values that are whole
    numbers, so one numeric constructor over [Z] serves both; the [dtype] of
    the enclosing series tells them apart. *)
Inductive cell : Type :=
  | Num (z : Z)
  | Str (s : string).

#[global] Instance cell_eq_dec : EqDecision cell.
Proof. solve_decision. Defined.

Inductive dtype : Type := Int64 | Float64 | Object.

#[global] Instance dtype_eq_dec : EqDecision dtype.
Proof. solve_decision. Defined.

(** A pandas [Series]: a typed column of cells. *)
Record Series : Type := mkSeries { s_dtype : dtype; s_values : list cell }.

#[global] Instance Series_eq_dec : EqDecision Series.
Proof. solve_decision. Defined.

(** A pandas [DataFrame]: named columns, in order ([data.columns]). *)
Definition DataFrame : Type := list (string * Series).

Definition df_columns (data : DataFrame) : list string := data.*1.

(** [data[column]]: the column of that name, [KeyError] ([None]) without. *)
Fixpoint df_get (data : DataFrame) (column : string) : option Series :=
  match data with
  | [] => None
  | (name, s) :: rest =>
      if decide (name = column) then Some s else df_get rest column
  end.

(** [data[column] = s]: overwrite the column in place when it exists, append
    it as a new last column otherwise. *)
Fixpoint df_set (data : DataFrame) (column : string) (s : Series) : DataFrame :=
  match data with
  | [] => [(column, s)]
  | (name, s0) :: rest =>
      if decide (name = column) then (name, s) :: rest
      else (name, s0) :: df_set rest column s
  end.

(** ** Ordering of cells

    [np.unique] and [np.searchsorted] compare array elements.  Numbers compare
    by value, strings lexicographically by character code, and (Python 2) a
    number is smaller than any string. *)
Definition cell_compare (a b : cell) : comparison :=
  match a, b with
  | Num x, Num y => Z.compare x y
  | Num _, Str _ => Lt
  | Str _, Num _ => Gt
  | Str s, Str t => String.compare s t
  end.

Definition cell_ltb (a b : cell) : bool :=
  match cell_compare a b with Lt => true | _ => false end.

Definition cell_lt (a b : cell) : Prop := cell_compare a b = Lt.

(** ** numpy routines used by [LabelEncoder] *)

Fixpoint insert_unique (x : cell) (l : list cell) : list cell :=
  match l with
  | [] => [x]
  | y :: l' =>
      match cell_compare x y with
      | Lt => x :: y :: l'
      | Eq => y :: l'
      | Gt => y :: insert_unique x l'
      end
  end.

(** [np.unique(ar)]: the sorted distinct elements of [ar]. *)
Definition np_unique (ar : list cell) : list cell := foldr insert_unique [] ar.

(** [np.intersect1d(ar1, ar2)] on two arrays of distinct sorted elements: the
    elements of the first that occur in the second. *)
Definition np_intersect1d (ar1 ar2 : list cell) : list cell :=
  filter (λ v, v ∈ ar2) ar1.

(** [np.searchsorted(a, v)] for one [v], [side='left']: the first index whose
    element is not smaller than [v]. *)
Fixpoint searchsorted (a : list cell) (v : cell) : nat :=
  match a with
  | [] => 0
  | c :: a' => if cell_ltb c v then S (searchsorted a' v) else 0
  end.

(** The code of [v] under the classes [classes], as an array element. *)
Definition code_of (classes : list cell) (v : cell) : cell :=
  Num (Z.of_nat (searchsorted classes v)).

(** ** sklearn.preprocessing.LabelEncoder *)
Module LabelEncoder.

(** The fitted state is the array [classes_]. *)
Record t : Type := mk { classes_ : list cell }.

(** [fit(y)]: [self.classes_ = np.unique(y)]. *)
Definition fit (y : list cell) : t := mk (np_unique y).

(** [transform(y)]: [ValueError] ("y contains new labels") when some label
    of [y] is not among [classes_], otherwise
    [np.searchsorted(self.classes_, y)]. *)
Definition transform (self : t) (y : list cell) : option (list cell) :=
  let classes := np_unique y in
  if decide (length (np_intersect1d classes (classes_ self)) < length classes)
  then None
  else Some (code_of (classes_ self) <$> y).

(** [inverse_transform(y)]: [self.classes_[y]], [ValueError] when a code
    lies outside [0 .. len(classes_) - 1]. *)
Definition inverse_transform (self : t) (y : list cell)
  : option (list cell) :=
  mapM (λ code, match code with
                | Num z =>
                    if decide (0 ≤ z)%Z then classes_ self !! Z.to_nat z
                    else None
                | Str _ => None
                end) y.

End LabelEncoder.

(** ** pandas routines used by the script *)

(** [Series.unique()]: the distinct values in order of first appearance. *)
Definition series_unique (values : list cell) : list cell :=
  foldl (λ seen v, if decide (v ∈ seen) then seen else seen ++ [v]) [] values.

(** [data[columns]] for a list of column names: the named columns, in the
    order asked for; [KeyError] when one is missing. *)
Definition df_select (data : DataFrame) (columns : list string)
  : option (list Series) :=
  mapM (df_get data) columns.

(** [names[:-1]] and [names[-1]]. *)
Definition but_last {A} (l : list A) : list A := take (length l - 1) l.

(** ** Load into pandas: the column names *)
Definition names : list string :=
  [ "age"; "workclass"; "fnlwgt"; "education"; "education-num";
    "marital-status"; "occupation"; "relationship"; "race"; "sex";
    "capital-gain"; "capital-loss"; "hours-per-week"; "native-country";
    "income" ].

(** ** Make the bunch: [meta] *)
Record Meta : Type := mkMeta {
  target_names : list cell;
  feature_names : list string;
  categorical_features : gmap string (list cell)
}.

(** The dictionary comprehension of [meta['categorical_features']]: one entry
    per column of dtype [object], in column order. *)
Definition object_domains (data : DataFrame) : gmap string (list cell) :=
  foldl (λ d column,
           match df_get data column with
           | Some s =>
               if decide (s_dtype s = Object)
               then <[column := series_unique (s_values s)]> d
               else d
           | None => d
           end)
        ∅ (df_columns data).

(** The entry that the comprehension makes for a column. *)
Definition domain_of (data : DataFrame) (c : string) : option (list cell) :=
  match df_get data c with
  | Some s =>
      if decide (s_dtype s = Object) then Some (series_unique (s_values s))
      else None
  | None => None
  end.

(** The module-level [meta], as a function of the frame [data] that
    [pd.read_csv(..., names=names)] returned.  [data.income] raises when the
    frame has no such column. *)
Definition meta (data : DataFrame) : option Meta :=
  income ← df_get data "income";
  Some {| target_names := series_unique (s_values income);
          feature_names := df_columns data;
          categorical_features := object_domains data |}.

(** ** [load_data] *)
Record Bunch : Type := mkBunch {
  b_data : DataFrame;
  b_target : Series;
  b_data_test : DataFrame;
  b_target_test : Series;
  b_target_names : list cell;
  b_feature_names : list string;
  b_categorical_features : gmap string (list cell)
}.



(** ** The object store

    Data frames are mutable objects.  Where a claim is about which object a
    method writes to, frames live in a store keyed by address and the method
    is a store transformer. *)
Abbreviation store := (gmap nat DataFrame).

(** [data.copy()]: a fresh object with the same contents. *)
Definition df_copy (data : nat) (h : store) : option (nat * store) :=
  df ← h !! data;
  let output := fresh (dom h) in
  Some (output, <[output := df]> h).

(** ** Custom label encoder *)
Module EncodeCategorical.

Record t : Type := mk {
  columns : option (list string);
  encoders : option (gmap string LabelEncoder.t)
}.

(** [__init__(self, columns=None)] *)
Definition init (columns : option (list string)) : t := mk columns None.

(** [fit(self, data, target=None)]: [target] is accepted and not used. *)
Definition fit (self : t) (data : DataFrame) (target : option (list cell))
  : option t :=
  let columns := default (df_columns data) (columns self) in
  encs ← foldl (λ acc column,
                  d ← acc;
                  s ← df_get data column;
                  Some (<[column := LabelEncoder.fit (s_values s)]> d))
               (Some ∅) columns;
  Some (mk (Some columns) (Some encs)).

(** [encoder.transform(data[column])], an integer array. *)
Definition encode_column (encoder : LabelEncoder.t) (data : DataFrame)
    (column : string) : option Series :=
  s ← df_get data column;
  codes ← LabelEncoder.transform encoder (s_values s);
  Some (mkSeries Int64 codes).

(** [transform(self, data)] as a function from frame to frame: the loop
    over [self.encoders.items()] reads [data] and writes the copy. *)
Definition transform (self : t) (data : DataFrame) : option DataFrame :=
  encs ← encoders self;
  map_fold (λ column encoder acc,
              output ← acc;
              s ← encode_column encoder data column;
              Some (df_set output column s))
           (Some data) encs.

(** The same method on the object store: [data] is the address of the
    argument, the result is the address returned ([None] when an exception
    ends the call) and the store the call leaves behind. *)
Definition transform_store (self : t) (data : nat) (h : store)
  : option nat * store :=
  match encoders self, df_copy data h with
  | Some encs, Some (output, h1) =>
      map_fold (λ column encoder (acc : option nat * store),
                  match acc with
                  | (None, h') => (None, h')
                  | (Some out, h') =>
                      match h' !! data ≫= (λ df, encode_column encoder df column) with
                      | Some s => (Some out, alter (λ df, df_set df column s) out h')
                      | None => (None, h')
                      end
                  end)
               (Some output, h1) encs
  | _, _ => (None, h)
  end.

End EncodeCategorical.

(** The column of codes that an encoder fitted on the column [s] makes of
    [s] itself. *)
Definition fitted_codes (s : Series) : Series :=
  mkSeries Int64 (code_of (np_unique (s_values s)) <$> s_values s).

(** ** float64

    The imputer works on [float64] arrays.  The numbers of this embedding are
    whole numbers, and a whole number is a [float64] when it has at most 53
    significant bits; converting an integer to [float64] rounds it to the
    nearest such number. *)

(** The nearest number with at most 53 significant bits, a tie going to the
    even significand (IEEE 754 round-half-even). *)
Definition round_float64 (z : Z) : Z :=
  let a := Z.abs z in
  let e := (Z.log2 a - 52)%Z in
  if decide (e ≤ 0)%Z then z
  else
    let q := (a / 2 ^ e)%Z in
    let r := (a mod 2 ^ e)%Z in
    let half := (2 ^ (e - 1))%Z in
    let q' := if decide (r < half)%Z then q
              else if decide (half < r)%Z then (q + 1)%Z
              else if Z.even q then q else (q + 1)%Z in
    (Z.sgn z * (q' * 2 ^ e))%Z.

(** An integer as a [float64]: [OverflowError] when the rounded number is
    beyond the largest [float64] (never for an [int64]). *)
Definition float64_of_Z (z : Z) : option Z :=
  let r := round_float64 z in
  if decide (2 ^ 1024 ≤ Z.abs r)%Z then None else Some r.

(** An array element as a [float64]: a number is rounded, and a [str] goes
    through Python's [float], which is not part of this program and is taken
    as the parameter [float_of_str]: the number the string denotes, [None]
    when [float] raises [ValueError]. *)
Definition as_float64 (float_of_str : string → option Z) (v : cell)
  : option cell :=
  match v with
  | Num z => Num <$> float64_of_Z z
  | Str s => Num <$> float_of_str s
  end.

(** The [float64] array that an [int64] column converts to. *)
Definition float_values (s : Series) : list cell :=
  (λ v, match v with
        | Num z => Num (round_float64 z)
        | Str t => Str t
        end) <$> s_values s.

(** An element of an [int64] column. *)
Definition int64_cell (v : cell) : Prop :=
  ∃ z, v = Num z ∧ (Z.abs z < 2 ^ 63)%Z.

(** ** sklearn.preprocessing.Imputer, [strategy='most_frequent'], [axis=0]

    A matrix is the list of its columns. *)
Module Imputer.

(** [statistics_] holds one entry per column; [None] is [nan], the
    statistic of a column without any observed value. *)
Record t : Type := mk {
  missing_values : Z;
  statistics_ : option (list (option cell))
}.

(** [check_array(X, dtype=np.float64)]: the frame must have at least one
    column and one row, and every element is converted to [float64]. *)
Definition check_array (float_of_str : string → option Z) (X : list Series)
  : option (list (list cell)) :=
  match X with
  | [] => None
  | s :: _ =>
      if decide (s_values s = []) then None
      else mapM (λ s, mapM (as_float64 float_of_str) (s_values s)) X
  end.

Definition count (v : cell) (a : list cell) : nat :=
  length (filter (λ x, x = v) a).

(** [scipy.stats.mode(a)]: the scores of [np.unique(a)] are visited in
    increasing order and a score replaces the current one only when it is
    strictly more frequent, so ties go to the smallest value. *)
Definition stats_mode (a : list cell) : cell * nat :=
  foldl (λ (old : cell * nat) score,
           let counts := count score a in
           if decide (old.2 < counts) then (score, counts) else old)
        (Num 0, 0) (np_unique a).

(** [_most_frequent(array, np.nan, 0)] *)
Definition most_frequent (array : list cell) : option cell :=
  let '(most_frequent_value, most_frequent_count) :=
    match array with
    | [] => (Num 0, 0)
    | _ => stats_mode array
    end in
  if decide (most_frequent_count = 0) then None
  else Some most_frequent_value.

(** [_get_mask(X, missing_values)] on one entry. *)
Definition is_missing (self : t) (v : cell) : bool :=
  bool_decide (v = Num (missing_values self)).

(** The statistic that [fit] computes for one column. *)
Definition statistic (self : t) (column : list cell) : option cell :=
  most_frequent (filter (λ v, is_missing self v = false) column).

(** [fit(X)]: per column, the mode of the entries that are not masked. *)
Definition fit (self : t) (X : list (list cell)) : t :=
  mk (missing_values self) (Some (statistic self <$> X)).

(** [X[coordinates] = values] on one column: every masked entry receives
    the column's statistic. *)
Definition impute (self : t) (value : cell) (column : list cell)
  : list cell :=
  (λ v, if is_missing self v then value else v) <$> column.

(** [transform(X)]: the columns whose statistic is [nan] are deleted, and
    the others are imputed. *)
Definition transform (self : t) (X : list (list cell))
  : option (list (list cell)) :=
  statistics ← statistics_ self;
  if decide (length X ≠ length statistics) then None
  else Some (omap (λ p : list cell * option cell,
                     match p.2 with
                     | None => None
                     | Some value => Some (impute self value p.1)
                     end)
                  (zip X statistics)).

End Imputer.

(** ** Custom imputer for missing values *)
Module ImputeCategorical.

Record t : Type := mk {
  columns : option (list string);
  imputer : option Imputer.t
}.

(** [__init__(self, columns=None)] *)
Definition init (columns : option (list string)) : t := mk columns None.

(** [fit(self, data, target=None)]: [target] is accepted and not used. *)
Definition fit (float_of_str : string → option Z) (self : t)
    (data : DataFrame) (target : option (list cell)) : option t :=
  let columns := default (df_columns data) (columns self) in
  X ← df_select data columns ≫= Imputer.check_array float_of_str;
  Some (mk (Some columns) (Some (Imputer.fit (Imputer.mk 0 None) X))).

(** [output[columns] = X]: column [j] of the array goes to the [j]-th name.
    When the imputer has deleted a column the widths differ and the array
    cannot go back where it came from; the model stops there with an
    error. *)
Definition df_assign (output : DataFrame) (columns : list string)
    (X : list (list cell)) : option DataFrame :=
  if decide (length columns = length X)
  then Some (foldl (λ out (p : string * list cell),
                      df_set out p.1 (mkSeries Float64 p.2))
                   output (zip columns X))
  else None.

(** [transform(self, data)], on the copy [output] of [data]. *)
Definition transform (float_of_str : string → option Z) (self : t)
    (data : DataFrame) : option DataFrame :=
  columns ← columns self;
  imputer ← imputer self;
  X ← df_select data columns ≫= Imputer.check_array float_of_str;
  Xt ← Imputer.transform imputer X;
  df_assign data columns Xt.

End ImputeCategorical.

(** ** sklearn.pipeline.Pipeline over the two transformers

    The terminal estimator, [LogisticRegression], is kept abstract: a type of
    estimator states with its [fit] and [predict]. *)
Inductive step : Type :=
  | Encoder (e : EncodeCategorical.t)
  | Imputer_ (i : ImputeCategorical.t).

Section Pipeline.

(** Python's [float] on a [str], see [as_float64]. *)
Variable float_of_str : string → option Z.

Definition step_fit (s : step) (X : DataFrame) (y : option (list cell))
  : option step :=
  match s with
  | Encoder e => Encoder <$> EncodeCategorical.fit e X y
  | Imputer_ i => Imputer_ <$> ImputeCategorical.fit float_of_str i X y
  end.

Definition step_transform (s : step) (X : DataFrame) : option DataFrame :=
  match s with
  | Encoder e => EncodeCategorical.transform e X
  | Imputer_ i => ImputeCategorical.transform float_of_str i X
  end.

(** [TransformerMixin.fit_transform(X, y)]: [self.fit(X, y).transform(X)]. *)
Definition fit_transform (s : step) (X : DataFrame) (y : option (list cell))
  : option (step * DataFrame) :=
  s' ← step_fit s X y; Xt ← step_transform s' X; Some (s', Xt).

Variable LogisticRegression : Type.
Variable lr_fit :
  LogisticRegression → DataFrame → list cell → option LogisticRegression.
Variable lr_predict : LogisticRegression → DataFrame → option (list cell).

Record Pipeline : Type := mkPipeline {
  steps : list (string * step);
  final_estimator : string * LogisticRegression
}.

(** [_pre_transform]: every step before the last is fitted on, and then
    transforms, what the steps before it produced. *)
Fixpoint pre_transform (steps : list (string * step)) (Xt : DataFrame)
    (y : list cell) : option (list (string * step) * DataFrame) :=
  match steps with
  | [] => Some ([], Xt)
  | (name, transform) :: rest =>
      '(fitted, Xt') ← fit_transform transform Xt (Some y);
      '(rest', Xt'') ← pre_transform rest Xt' y;
      Some ((name, fitted) :: rest', Xt'')
  end.

(** [Pipeline.fit(X, y)] *)
Definition pipeline_fit (self : Pipeline) (X : DataFrame) (y : list cell)
  : option Pipeline :=
  '(steps', Xt) ← pre_transform (steps self) X y;
  clf ← lr_fit (final_estimator self).2 Xt y;
  Some (mkPipeline steps' ((final_estimator self).1, clf)).

(** [Pipeline.predict(X)] *)
Definition pipeline_predict (self : Pipeline) (X : DataFrame)
  : option (list cell) :=
  Xt ← foldl (λ acc '(_, transform), Xt ← acc; step_transform transform Xt)
             (Some X) (steps self);
  lr_predict (final_estimator self).2 Xt.

(** [__main__]: the pipeline as constructed, before fitting. *)
Definition census (dataset : Bunch) (lr : LogisticRegression) : Pipeline :=
  mkPipeline
    [ ("encoder", Encoder (EncodeCategorical.init
                             (Some (map_to_list (b_categorical_features dataset)).*1)));
      ("imputer", Imputer_ (ImputeCategorical.init
                             (Some ["workclass"; "native-country"; "occupation"]))) ]
    ("classifier", lr).

(** [__main__]: [yencode] and the fitted [census]. *)
Definition yencode (dataset : Bunch) : LabelEncoder.t :=
  LabelEncoder.fit (s_values (b_target dataset)).

Definition census_fit (dataset : Bunch) (lr : LogisticRegression)
  : option Pipeline :=
  y ← LabelEncoder.transform (yencode dataset) (s_values (b_target dataset));
  pipeline_fit (census dataset lr) (b_data dataset) y.

End Pipeline.

(** [__main__]: [y_true], the encoded test targets. *)
Definition char_in (a : ascii) (chars : string) : bool :=
  bool_decide (a ∈ list_ascii_of_string chars).

(** [str.rstrip(chars)]: drop every trailing character that is in [chars]. *)
Fixpoint rstrip (s chars : string) : string :=
  match s with
  | EmptyString => EmptyString
  | String a s' =>
      match rstrip s' chars with
      | EmptyString =>
          if char_in a chars then EmptyString else String a EmptyString
      | r => String a r
      end
  end.

(** [y.rstrip(".")] on an element of [dataset.target_test]: only a [str] has
    the method. *)
Definition rstrip_period (y : cell) : option cell :=
  match y with
  | Str s => Some (Str (rstrip s "."))
  | Num _ => None
  end.

Definition y_true (dataset : Bunch) : option (list cell) :=
  stripped ← mapM rstrip_period (s_values (b_target_test dataset));
  LabelEncoder.transform (yencode dataset) stripped.

(** ** Command line application

    Standard input is the list of lines still to be read; [raw_input] at the
    end of input raises [EOFError].  What the program writes is a list of
    events. *)
Inductive event : Type :=
  | Raw_input (prompt : string)          (* the prompt of a [raw_input] call *)
  | Print_not_valid (valid : list cell)  (* "Not valid, choose one of ..." *)
  | Print_prediction (label : cell).     (* "We predict that you make ..." *)

#[global] Instance event_eq_dec : EqDecision event.
Proof. solve_decision. Defined.

(** The truth value of [valid] in [if valid and ...]: [None] and the empty
    list are false. *)
Definition truthy (valid : option (list cell)) : bool :=
  match valid with
  | None | Some [] => false
  | Some (_ :: _) => true
  end.

(** [val not in valid] *)
Definition not_in (val : string) (valid : option (list cell)) : bool :=
  bool_decide (Str val ∉ default [] valid).

(** The [while True] loop of [predict] for one column: the value stored in
    [data[column]] and the input left, or [None] when input ends first. *)
Fixpoint prompt_until_good (column : string) (valid : option (list cell))
    (stdin : list string) : list event * option (string * list string) :=
  let prompt := Raw_input ("enter " +:+ column +:+ " >") in
  match stdin with
  | [] => ([prompt], None)
  | line :: rest =>
      let val := " " +:+ line in
      if truthy valid && not_in val valid
      then let '(out, r) := prompt_until_good column valid rest in
           (prompt :: Print_not_valid (default [] valid) :: out, r)
      else ([prompt], Some (val, rest))
  end.

(** The [for column in meta['feature_names'][:-1]] loop of [predict]. *)
Fixpoint read_features (m : Meta) (columns : list string)
    (data : gmap string cell) (stdin : list string)
  : list event * option (gmap string cell * list string) :=
  match columns with
  | [] => ([], Some (data, stdin))
  | column :: columns' =>
      if decide (column = "fnlwgt")
      then read_features m columns' (<[column := Num 189778]> data) stdin
      else
        let valid := categorical_features m !! column in
        match prompt_until_good column valid stdin with
        | (out, None) => (out, None)
        | (out, Some (val, rest)) =>
            let '(out', r) :=
              read_features m columns' (<[column := Str val]> data) rest in
            (out ++ out', r)
        end
  end.

(** [pd.DataFrame([data])]: a frame of one row.  A Python 2 [dict] has no
    order of its own, and pandas takes the columns of a list of dicts in
    sorted order of the keys. *)
Definition row_frame (data : gmap string cell) : DataFrame :=
  (λ kv : string * cell,
     (kv.1, mkSeries (match kv.2 with Num _ => Int64 | Str _ => Object end)
                     [kv.2]))
  <$> merge_sort (λ kv kv' : string * cell, String.le kv.1 kv'.1)
                 (map_to_list data).

(** [predict(model, meta)]: [model_predict] is [model.predict] and [yencode]
    the module-level label encoder.  The result is what was written and, when
    the call returns, the input it left unread. *)
Definition predict (model_predict : DataFrame → option (list cell))
    (yencode : LabelEncoder.t) (m : Meta) (stdin : list string)
  : list event * option (list string) :=
  match read_features m (but_last (feature_names m)) ∅ stdin with
  | (out, None) => (out, None)
  | (out, Some (data, rest)) =>
      match yhat ← model_predict (row_frame data);
            labels ← LabelEncoder.inverse_transform yencode yhat;
            head labels with
      | Some label => (out ++ [Print_prediction label], Some rest)
      | None => (out, None)
      end
  end.

(** A line that the loop rejects for a column with domain [valid]. *)
Definition rejected (valid : option (list cell)) (line : string) : Prop :=
  truthy valid = true ∧ Str (" " +:+ line) ∉ default [] valid.

(** What the loop writes for a column while it reads the lines [bad], all
    rejected, and then blocks on or reads one more line: a prompt and a
    complaint per rejected line, and one more prompt. *)
Definition session_events (column : string) (valid : option (list cell))
    (bad : list string) : list event :=
  flat_map (λ _ : string, [ Raw_input ("enter " +:+ column +:+ " >");
                            Print_not_valid (default [] valid) ]) bad
  ++ [ Raw_input ("enter " +:+ column +:+ " >") ].

(** The dictionary [data] that [predict] has built once every column was
    answered, [answer c] being the line accepted for column [c]. *)
Definition collected (answer : string → string) (columns : list string)
    (data : gmap string cell) : gmap string cell :=
  foldl (λ d c, <[c := if decide (c = "fnlwgt") then Num 189778
                       else Str (" " +:+ answer c)]> d)
        data columns.

(** ** Sample data

    Three records of [adult.data], as [read_csv] with [sep="\s*,"] delivers
    them: strings keep the blank that follows the comma. *)
Definition sample_data : DataFrame :=
  [ ("age", mkSeries Int64 [Num 39; Num 50; Num 52]);
    ("workclass", mkSeries Object
       [Str " State-gov"; Str " Self-emp-not-inc"; Str " Self-emp-not-inc"]);
    ("fnlwgt", mkSeries Int64 [Num 77516; Num 83311; Num 209642]);
    ("education", mkSeries Object
       [Str " Bachelors"; Str " Bachelors"; Str " HS-grad"]);
    ("education-num", mkSeries Int64 [Num 13; Num 13; Num 9]);
    ("marital-status", mkSeries Object
       [Str " Never-married"; Str " Married-civ-spouse";
        Str " Married-civ-spouse"]);
    ("occupation", mkSeries Object
       [Str " Adm-clerical"; Str " Exec-managerial"; Str " Exec-managerial"]);
    ("relationship", mkSeries Object
       [Str " Not-in-family"; Str " Husband"; Str " Husband"]);
    ("race", mkSeries Object [Str " White"; Str " White"; Str " White"]);
    ("sex", mkSeries Object [Str " Male"; Str " Male"; Str " Male"]);
    ("capital-gain", mkSeries Int64 [Num 2174; Num 0; Num 0]);
    ("capital-loss", mkSeries Int64 [Num 0; Num 0; Num 0]);
    ("hours-per-week", mkSeries Int64 [Num 40; Num 13; Num 45]);
    ("native-country", mkSeries Object
       [Str " United-States"; Str " United-States"; Str " United-States"]);
    ("income", mkSeries Object [Str " <=50K"; Str " <=50K"; Str " >50K"]) ].
(** ** Facts about the ordering *)

Lemma ascii_compare_lt_trans a b c :
  Ascii.compare a b = Lt → Ascii.compare b c = Lt → Ascii.compare a c = Lt.
Proof.
  unfold Ascii.compare. rewrite !N.compare_lt_iff. lia.
Qed.

Lemma string_compare_lt_trans s1 : ∀ s2 s3,
  String.compare s1 s2 = Lt → String.compare s2 s3 = Lt →
  String.compare s1 s3 = Lt.
Proof.
  induction s1 as [|a s1 IH]; intros [|b s2] [|c s3]; simpl; try done.
  destruct (Ascii.compare a b) eqn:Hab; try done;
    destruct (Ascii.compare b c) eqn:Hbc; try done; intros H12 H23.
  - apply Ascii.compare_eq_iff in Hab, Hbc. subst.
    assert (Ascii.compare c c = Eq) as ->.
    { unfold Ascii.compare. apply N.compare_refl. }
    eauto.
  - apply Ascii.compare_eq_iff in Hab. subst. by rewrite Hbc.
  - apply Ascii.compare_eq_iff in Hbc. subst. by rewrite Hab.
  - by rewrite (ascii_compare_lt_trans _ _ _ Hab Hbc).
Qed.

Lemma string_compare_refl s : String.compare s s = Eq.
Proof.
  induction s as [|a s IH]; simpl; [done|].
  unfold Ascii.compare. by rewrite N.compare_refl.
Qed.

Lemma cell_compare_eq a b : cell_compare a b = Eq ↔ a = b.
Proof.
  destruct a as [x|s], b as [y|t]; simpl; split; try done.
  - intros ->%Z.compare_eq_iff. done.
  - intros [= ->]. apply Z.compare_refl.
  - intros ->%String.compare_eq_iff. done.
  - intros [= ->]. apply string_compare_refl.
Qed.

Lemma cell_compare_antisym a b :
  cell_compare b a = CompOpp (cell_compare a b).
Proof.
  destruct a as [x|s], b as [y|t]; simpl; try done.
  - apply Z.compare_antisym.
  - apply String.compare_antisym.
Qed.

Lemma cell_lt_trans a b c : cell_lt a b → cell_lt b c → cell_lt a c.
Proof.
  unfold cell_lt.
  destruct a as [x|s], b as [y|t], c as [z|u]; simpl; try done.
  - rewrite !Z.compare_lt_iff. lia.
  - apply string_compare_lt_trans.
Qed.

Lemma cell_lt_irrefl a : ¬ cell_lt a a.
Proof.
  unfold cell_lt. intros H.
  assert (cell_compare a a = Eq) by by apply cell_compare_eq. congruence.
Qed.

Lemma cell_ltb_lt a b : cell_ltb a b = true ↔ cell_lt a b.
Proof. unfold cell_ltb, cell_lt. destruct (cell_compare a b); naive_solver. Qed.

#[global] Instance cell_lt_transitive : Transitive cell_lt.
Proof. intros a b c. apply cell_lt_trans. Qed.

(** ** Facts about [np.unique] and [np.searchsorted] *)

Lemma cell_compare_gt a b : cell_compare a b = Gt → cell_lt b a.
Proof.
  unfold cell_lt. rewrite (cell_compare_antisym a b). by intros ->.
Qed.

Lemma elem_of_insert_unique v x l : v ∈ insert_unique x l ↔ v = x ∨ v ∈ l.
Proof.
  induction l as [|y l IH]; simpl.
  - rewrite list_elem_of_singleton, elem_of_nil. tauto.
  - destruct (cell_compare x y) eqn:Hc.
    + apply cell_compare_eq in Hc as ->. rewrite elem_of_cons. tauto.
    + rewrite !elem_of_cons. tauto.
    + rewrite !elem_of_cons, IH. tauto.
Qed.

Lemma elem_of_np_unique v ar : v ∈ np_unique ar ↔ v ∈ ar.
Proof.
  induction ar as [|x ar IH]; simpl; [done|].
  fold (np_unique ar). rewrite elem_of_insert_unique, IH, elem_of_cons. tauto.
Qed.

Lemma insert_unique_sorted x l :
  StronglySorted cell_lt l → StronglySorted cell_lt (insert_unique x l).
Proof.
  induction 1 as [|y l Hl IH Hy]; simpl.
  - repeat constructor.
  - destruct (cell_compare x y) eqn:Hc.
    + by constructor.
    + constructor; [by constructor|].
      constructor; [done|].
      eapply Forall_impl; [exact Hy|]. intros z Hz. by etrans.
    + constructor; [done|].
      apply Forall_forall. intros z Hz.
      rewrite elem_of_insert_unique in Hz. destruct Hz as [->|Hz].
      * by apply cell_compare_gt.
      * by eapply Forall_forall in Hy.
Qed.

Lemma np_unique_sorted ar : StronglySorted cell_lt (np_unique ar).
Proof.
  induction ar as [|x ar IH]; simpl; [constructor|].
  by apply insert_unique_sorted.
Qed.

Lemma sorted_NoDup l : StronglySorted cell_lt l → NoDup l.
Proof.
  induction 1 as [|y l Hl IH Hy]; constructor; [|done].
  intros Hin. eapply Forall_forall in Hy; [|done]. by apply cell_lt_irrefl in Hy.
Qed.

Lemma np_unique_NoDup ar : NoDup (np_unique ar).
Proof. apply sorted_NoDup, np_unique_sorted. Qed.

(** On a sorted array [searchsorted] finds the position of each element. *)
Lemma searchsorted_lookup l : StronglySorted cell_lt l →
  ∀ i v, l !! i = Some v → searchsorted l v = i.
Proof.
  induction 1 as [|y l Hl IH Hy]; intros i v Hi; [done|].
  simpl. destruct i as [|i]; simpl in Hi.
  - injection Hi as ->.
    destruct (cell_ltb v v) eqn:Hlt; [|done].
    by apply cell_ltb_lt, cell_lt_irrefl in Hlt.
  - assert (cell_lt y v) as Hyv.
    { eapply Forall_forall in Hy; [done|]. by eapply list_elem_of_lookup_2. }
    apply cell_ltb_lt in Hyv as ->. f_equal. by apply IH.
Qed.

Lemma searchsorted_inj l v w :
  StronglySorted cell_lt l → v ∈ l → w ∈ l →
  searchsorted l v = searchsorted l w → v = w.
Proof.
  intros Hl [i Hi]%list_elem_of_lookup_1 [j Hj]%list_elem_of_lookup_1.
  rewrite (searchsorted_lookup l Hl i v Hi), (searchsorted_lookup l Hl j w Hj).
  intros ->. congruence.
Qed.

Lemma searchsorted_lt_length l v :
  StronglySorted cell_lt l → v ∈ l → searchsorted l v < length l.
Proof.
  intros Hl [i Hi]%list_elem_of_lookup_1.
  rewrite (searchsorted_lookup l Hl i v Hi). by eapply lookup_lt_Some.
Qed.

(** ** Facts about [LabelEncoder] *)

Lemma filter_length_lt {A} (P : A → Prop) `{∀ x, Decision (P x)} (l : list A) :
  length (filter P l) < length l ↔ ¬ Forall P l.
Proof.
  induction l as [|x l IH]; simpl.
  - split; [lia|]. intros []. constructor.
  - pose proof (length_filter P l) as Hle.
    rewrite filter_cons. destruct (decide (P x)) as [HP|HP]; simpl.
    + rewrite Forall_cons. rewrite <-Nat.succ_lt_mono, IH. tauto.
    + rewrite Forall_cons. split; [tauto|lia].
Qed.

(** [transform] succeeds exactly when every label was seen at fit time. *)
Lemma LabelEncoder_transform_Some self y :
  Forall (λ v, v ∈ LabelEncoder.classes_ self) y →
  LabelEncoder.transform self y
  = Some (code_of (LabelEncoder.classes_ self) <$> y).
Proof.
  intros Hy. unfold LabelEncoder.transform, np_intersect1d.
  destruct (decide _) as [Hlt|_]; [|done].
  apply filter_length_lt in Hlt. destruct Hlt.
  apply Forall_forall. intros v Hv. rewrite elem_of_np_unique in Hv.
  rewrite Forall_forall in Hy. by apply Hy.
Qed.

Lemma LabelEncoder_transform_None self y :
  ¬ Forall (λ v, v ∈ LabelEncoder.classes_ self) y →
  LabelEncoder.transform self y = None.
Proof.
  intros Hy. unfold LabelEncoder.transform, np_intersect1d.
  destruct (decide _) as [_|Hge]; [done|].
  destruct Hy. apply Forall_forall. intros v Hv.
  destruct (decide (Forall (λ v, v ∈ LabelEncoder.classes_ self) (np_unique y)))
    as [Hall|Hnot].
  - rewrite Forall_forall in Hall. by apply Hall, elem_of_np_unique.
  - apply (proj2 (filter_length_lt _ _)) in Hnot. done.
Qed.

Lemma LabelEncoder_fit_transform y :
  LabelEncoder.transform (LabelEncoder.fit y) y
  = Some (code_of (np_unique y) <$> y).
Proof.
  apply LabelEncoder_transform_Some, Forall_forall.
  intros v Hv. by apply elem_of_np_unique.
Qed.

(** ** Facts about data frames *)

Lemma df_get_set data column s column' :
  df_get (df_set data column s) column'
  = if decide (column = column') then Some s else df_get data column'.
Proof.
  induction data as [|[name s0] data IH]; simpl.
  - by destruct (decide (column = column')).
  - destruct (decide (name = column)) as [->|Hne]; simpl.
    + by destruct (decide (column = column')).
    + destruct (decide (name = column')) as [->|?].
      * by rewrite decide_False by done.
      * done.
Qed.

Lemma df_columns_set data column s :
  is_Some (df_get data column) →
  df_columns (df_set data column s) = df_columns data.
Proof.
  unfold df_columns. induction data as [|[name s0] data IH]; simpl.
  - by intros [? ?].
  - destruct (decide (name = column)) as [->|Hne]; [done|].
    intros H. rewrite !fmap_cons. f_equal. by apply IH.
Qed.

Lemma df_get_is_Some data column :
  is_Some (df_get data column) ↔ column ∈ df_columns data.
Proof.
  unfold df_columns. induction data as [|[name s0] data IH]; simpl.
  - rewrite elem_of_nil. split; [by intros [? ?]|done].
  - rewrite elem_of_cons. destruct (decide (name = column)) as [->|Hne].
    + split; [by left|by eexists].
    + rewrite IH. naive_solver.
Qed.

(** ** Facts about [EncodeCategorical] *)

Lemma fit_encoders_fold data columns : ∀ d : gmap string LabelEncoder.t,
  Forall (λ c, c ∈ df_columns data) columns →
  ∃ d' : gmap string LabelEncoder.t,
    foldl (λ acc column,
             d ← acc;
             s ← df_get data column;
             Some (<[column := LabelEncoder.fit (s_values s)]> d))
          (Some d) columns = Some d'
    ∧ ∀ c, d' !! c
           = if decide (c ∈ columns)
             then (λ s, LabelEncoder.fit (s_values s)) <$> df_get data c
             else d !! c.
Proof.
  induction columns as [|column columns IH]; intros d Hall; simpl.
  - by exists d.
  - apply Forall_cons in Hall as [Hc Hall].
    apply df_get_is_Some in Hc as [s Hs]. rewrite Hs. simpl.
    destruct (IH (<[column := LabelEncoder.fit (s_values s)]> d) Hall)
      as (d' & Hd' & Hlook).
    exists d'. split; [done|]. intros c. rewrite Hlook.
    destruct (decide (c ∈ columns)) as [Hin|Hnin].
    + by rewrite decide_True by (by right).
    + destruct (decide (c = column)) as [->|Hne].
      * rewrite decide_True by (by left). by rewrite lookup_insert_eq, Hs.
      * rewrite decide_False by (rewrite elem_of_cons; tauto).
        by rewrite lookup_insert_ne.
Qed.

(** [fit] returns when every column it is asked to encode is in the frame,
    and then holds one encoder per such column, fitted on that column. *)
Lemma EncodeCategorical_fit_Some columns data target :
  let cols := default (df_columns data) columns in
  Forall (λ c, c ∈ df_columns data) cols →
  ∃ encs,
    EncodeCategorical.fit (EncodeCategorical.init columns) data target
    = Some (EncodeCategorical.mk (Some cols) (Some encs))
    ∧ ∀ c, encs !! c
           = if decide (c ∈ cols)
             then (λ s, LabelEncoder.fit (s_values s)) <$> df_get data c
             else None.
Proof.
  intros cols Hall. unfold EncodeCategorical.fit. simpl. fold cols.
  destruct (fit_encoders_fold data cols ∅ Hall) as (encs & -> & Hlook).
  exists encs. split; [done|]. intros c. rewrite Hlook.
  by rewrite lookup_empty.
Qed.

(** The loop of [transform]: when every encoder accepts its column the
    result has the columns of the input, the encoded column where there is an
    encoder and the input column elsewhere. *)
Lemma EncodeCategorical_transform_Some self encs data :
  EncodeCategorical.encoders self = Some encs →
  (∀ c enc, encs !! c = Some enc →
            is_Some (EncodeCategorical.encode_column enc data c)) →
  ∃ output,
    EncodeCategorical.transform self data = Some output
    ∧ df_columns output = df_columns data
    ∧ ∀ c, df_get output c
           = match encs !! c with
             | Some enc => EncodeCategorical.encode_column enc data c
             | None => df_get data c
             end.
Proof.
  intros Henc. unfold EncodeCategorical.transform. rewrite Henc. simpl.
  apply (map_fold_weak_ind (λ (acc : option DataFrame) (m : gmap string LabelEncoder.t),
    (∀ c enc, m !! c = Some enc →
              is_Some (EncodeCategorical.encode_column enc data c)) →
    ∃ output, acc = Some output ∧ df_columns output = df_columns data
      ∧ ∀ c, df_get output c
             = match m !! c with
               | Some enc => EncodeCategorical.encode_column enc data c
               | None => df_get data c
               end)).
  - intros _. exists data. split_and!; [done..|]. intros c. by rewrite lookup_empty.
  - intros i x m r Hi IH Hok.
    destruct IH as (out & -> & Hcols & Hget).
    { intros c enc Hc. apply Hok. rewrite lookup_insert_ne; [done|]. congruence. }
    destruct (Hok i x) as [s Hs]; [by rewrite lookup_insert_eq|].
    simpl. rewrite Hs. simpl. eexists. split_and!; [done| |].
    + rewrite df_columns_set; [done|]. rewrite Hget, Hi.
      unfold EncodeCategorical.encode_column in Hs.
      destruct (df_get data i); [by eexists|done].
    + intros c. rewrite df_get_set. destruct (decide (i = c)) as [->|Hne].
      * by rewrite lookup_insert_eq.
      * by rewrite lookup_insert_ne, Hget.
Qed.

(** ... and when some encoder rejects its column the call raises. *)
Lemma EncodeCategorical_transform_None self encs data c enc :
  EncodeCategorical.encoders self = Some encs →
  encs !! c = Some enc →
  EncodeCategorical.encode_column enc data c = None →
  EncodeCategorical.transform self data = None.
Proof.
  intros Henc. unfold EncodeCategorical.transform. rewrite Henc. simpl.
  revert c enc.
  apply (map_fold_weak_ind (λ (acc : option DataFrame) (m : gmap string LabelEncoder.t),
    ∀ c enc, m !! c = Some enc →
      EncodeCategorical.encode_column enc data c = None → acc = None)).
  - intros c enc. by rewrite lookup_empty.
  - intros i x m r Hi IH c enc Hc Hnone.
    destruct r as [out|]; [|done]. simpl.
    destruct (decide (i = c)) as [->|Hne].
    + rewrite lookup_insert_eq in Hc. injection Hc as ->. by rewrite Hnone.
    + rewrite lookup_insert_ne in Hc by done. by specialize (IH c enc Hc Hnone).
Qed.

Lemma encode_column_fit data c s :
  df_get data c = Some s →
  EncodeCategorical.encode_column (LabelEncoder.fit (s_values s)) data c
  = Some (mkSeries Int64 (code_of (np_unique (s_values s)) <$> s_values s)).
Proof.
  intros Hs. unfold EncodeCategorical.encode_column. rewrite Hs. simpl.
  by rewrite LabelEncoder_fit_transform.
Qed.

(** Fitting on a frame and transforming that frame always goes through, and
    replaces each fitted column by its codes. *)
Lemma EncodeCategorical_fit_transform columns data target :
  let cols := default (df_columns data) columns in
  Forall (λ c, c ∈ df_columns data) cols →
  ∃ encs output,
    EncodeCategorical.fit (EncodeCategorical.init columns) data target
    = Some (EncodeCategorical.mk (Some cols) (Some encs))
    ∧ (∀ c, encs !! c
            = if decide (c ∈ cols)
              then (λ s, LabelEncoder.fit (s_values s)) <$> df_get data c
              else None)
    ∧ EncodeCategorical.transform
        (EncodeCategorical.mk (Some cols) (Some encs)) data = Some output
    ∧ df_columns output = df_columns data
    ∧ ∀ c, df_get output c
           = if decide (c ∈ cols) then fitted_codes <$> df_get data c
             else df_get data c.
Proof.
  intros cols Hall.
  destruct (EncodeCategorical_fit_Some columns data target Hall)
    as (encs & Hfit & Hencs).
  assert (∀ c enc, encs !! c = Some enc →
            ∃ s, df_get data c = Some s ∧ enc = LabelEncoder.fit (s_values s))
    as Hshape.
  { intros c enc Hc. rewrite Hencs in Hc. case_decide; [|done].
    destruct (df_get data c) as [s|]; [|done]. injection Hc as <-. eauto. }
  destruct (EncodeCategorical_transform_Some
              (EncodeCategorical.mk (Some cols) (Some encs)) encs data eq_refl)
    as (output & Htr & Hcols & Hget).
  { intros c enc (s & Hs & ->)%Hshape. rewrite (encode_column_fit _ _ _ Hs).
    by eexists. }
  exists encs, output. split_and!; [done..|].
  intros c. rewrite Hget, Hencs. subst cols.
  destruct (decide (c ∈ default (df_columns data) columns)) as [Hc|Hc]; [|done].
  rewrite Forall_forall in Hall.
  destruct (proj2 (df_get_is_Some data c) (Hall c Hc)) as [s Hs].
  rewrite Hs. simpl. by rewrite (encode_column_fit _ _ _ Hs).
Qed.

Lemma remove_dups_fmap_length {A B} `{EqDecision A, EqDecision B}
    (f : A → B) (l : list A) :
  (∀ x y, x ∈ l → y ∈ l → f x = f y → x = y) →
  length (remove_dups (f <$> l)) = length (remove_dups l).
Proof.
  induction l as [|x l IH]; intros Hinj; [done|].
  assert (length (remove_dups (f <$> l)) = length (remove_dups l)) as IH'.
  { apply IH. intros y z Hy Hz. apply Hinj; by right. }
  rewrite fmap_cons. simpl.
  destruct (decide_rel elem_of x l) as [Hx|Hx];
    destruct (decide_rel elem_of (f x) (f <$> l)) as [Hfx|Hfx]; simpl.
  - done.
  - destruct Hfx. by apply list_elem_of_fmap_2.
  - apply list_elem_of_fmap in Hfx as (y & Hfy & Hy).
    apply Hinj in Hfy; [by subst|by left|by right].
  - by rewrite IH'.
Qed.

Lemma code_of_inj values v w :
  v ∈ values → w ∈ values →
  code_of (np_unique values) v = code_of (np_unique values) w → v = w.
Proof.
  intros Hv Hw [= Heq%Nat2Z.inj].
  eapply searchsorted_inj; [apply np_unique_sorted|..|done];
    by apply elem_of_np_unique.
Qed.

(** C2: fitting [EncodeCategorical] on a training table [T] (for the given
    columns, or for all columns when none is given) and transforming [T] with
    the fitted encoder returns a table in which every fitted column holds
    integer codes, and the number of distinct codes in the column is the
    number of distinct values the column has in [T]. *)
Theorem encode_fit_transform_cardinality
    (columns : option (list string)) (T : DataFrame)
    (target : option (list cell)) :
  let cols := default (df_columns T) columns in
  Forall (λ c, c ∈ df_columns T) cols →
  ∃ self output,
    EncodeCategorical.fit (EncodeCategorical.init columns) T target = Some self
    ∧ EncodeCategorical.transform self T = Some output
    ∧ ∀ c, c ∈ cols →
        ∃ s codes,
          df_get T c = Some s
          ∧ df_get output c = Some (mkSeries Int64 codes)
          ∧ Forall (λ v, ∃ n : nat, v = Num (Z.of_nat n)) codes
          ∧ length (remove_dups codes) = length (remove_dups (s_values s)).
Proof.
  intros cols Hall.
  destruct (EncodeCategorical_fit_transform columns T target Hall)
    as (encs & output & Hfit & _ & Htr & _ & Hget).
  eexists _, output. split_and!; [done..|].
  intros c Hc. rewrite Forall_forall in Hall.
  destruct (proj2 (df_get_is_Some T c) (Hall c Hc)) as [s Hs].
  exists s, (code_of (np_unique (s_values s)) <$> s_values s).
  split_and!; [done| | |].
  - rewrite Hget, decide_True, Hs by done. done.
  - apply Forall_fmap, Forall_forall. intros v _. by eexists.
  - apply remove_dups_fmap_length. intros x y. apply code_of_inj.
Qed.

Lemma encode_fit_transform_cardinality_witness :
  let T : DataFrame :=
    [ ("age", mkSeries Int64 [Num 39; Num 50; Num 39]);
      ("workclass", mkSeries Object
                      [Str " State-gov"; Str " ?"; Str " State-gov"]) ] in
  ∃ self output,
    EncodeCategorical.fit (EncodeCategorical.init (Some ["workclass"])) T None
    = Some self
    ∧ EncodeCategorical.transform self T = Some output
    ∧ ∀ c, c ∈ ["workclass"] →
        ∃ s codes,
          df_get T c = Some s
          ∧ df_get output c = Some (mkSeries Int64 codes)
          ∧ Forall (λ v, ∃ n : nat, v = Num (Z.of_nat n)) codes
          ∧ length (remove_dups codes) = length (remove_dups (s_values s)).
Proof.
  intros T.
  apply (encode_fit_transform_cardinality (Some ["workclass"]) T None).
  apply (bool_decide_unpack _). vm_compute. exact I.
Defined.

(** If [transform] returns, every encoder accepted its column. *)
Lemma EncodeCategorical_transform_inv self encs data output :
  EncodeCategorical.encoders self = Some encs →
  EncodeCategorical.transform self data = Some output →
  (∀ c enc, encs !! c = Some enc →
            is_Some (EncodeCategorical.encode_column enc data c))
  ∧ df_columns output = df_columns data
  ∧ ∀ c, df_get output c
         = match encs !! c with
           | Some enc => EncodeCategorical.encode_column enc data c
           | None => df_get data c
           end.
Proof.
  intros Henc Htr.
  assert (∀ c enc, encs !! c = Some enc →
            is_Some (EncodeCategorical.encode_column enc data c)) as Hok.
  { intros c enc Hc.
    destruct (EncodeCategorical.encode_column enc data c) eqn:Hcol; [by eexists|].
    rewrite (EncodeCategorical_transform_None self encs data c enc) in Htr; done. }
  split; [done|].
  destruct (EncodeCategorical_transform_Some self encs data Henc Hok)
    as (output' & Htr' & Hcols & Hget).
  rewrite Htr in Htr'. by injection Htr' as <-.
Qed.

(** The method on the store against the method on frames: the call leaves
    the store as it was up to one fresh object, which holds the result when
    the call returns. *)
Lemma transform_store_spec self data h df :
  h !! data = Some df →
  let output := fresh (dom h) in
  match EncodeCategorical.transform self df with
  | Some out =>
      EncodeCategorical.transform_store self data h
      = (Some output, <[output := out]> h)
  | None =>
      (EncodeCategorical.transform_store self data h).1 = None
      ∧ ∀ a, a ≠ output →
             (EncodeCategorical.transform_store self data h).2 !! a = h !! a
  end.
Proof.
  intros Hdata output.
  assert (output ≠ data) as Hfresh.
  { intros Heq. apply (is_fresh (dom h)). fold output. rewrite Heq.
    by apply elem_of_dom. }
  unfold EncodeCategorical.transform, EncodeCategorical.transform_store, df_copy.
  rewrite Hdata. simpl. fold output.
  destruct (EncodeCategorical.encoders self) as [encs|]; simpl; [|done].
  rewrite !map_fold_foldr.
  induction (map_to_list encs) as [|[c enc] l IH]; simpl; [done|].
  destruct (foldr _ (Some df) l) as [out|] eqn:Hpure; simpl.
  - rewrite IH. simpl.
    rewrite lookup_insert_ne by done. rewrite Hdata. simpl.
    destruct (EncodeCategorical.encode_column enc df c) as [s|]; simpl.
    + by rewrite alter_insert_eq.
    + split; [done|]. intros a Ha. by rewrite lookup_insert_ne.
  - destruct IH as [Hr Hh].
    destruct (foldr _ (Some output, _) l) as [r h'] eqn:Hst.
    simpl in Hr, Hh. subst r. done.
Qed.

(** C7: [EncodeCategorical.transform] does not write to its argument.  On a
    store in which the argument [data] is the frame [T], the call changes no
    object that existed before it (so [data] still holds [T]); it returns
    exactly when the transform of [T] is defined, and then the result is a
    new object, with the columns of [T] in the same order, in which every
    column without a fitted encoder is the column of [T] and every column
    with one holds the integer codes its encoder gives to the column of
    [T]. *)
Theorem transform_leaves_input_and_unfitted_columns
    (self : EncodeCategorical.t) (encs : gmap string LabelEncoder.t)
    (data : nat) (h : store) (T : DataFrame) :
  EncodeCategorical.encoders self = Some encs →
  h !! data = Some T →
  let '(result, h') := EncodeCategorical.transform_store self data h in
  (∀ a, a ∈ dom h → h' !! a = h !! a)
  ∧ h' !! data = Some T
  ∧ (result = None ↔ EncodeCategorical.transform self T = None)
  ∧ ∀ out, result = Some out →
      (out ∉ dom h)
      ∧ ∃ output,
          h' !! out = Some output
          ∧ EncodeCategorical.transform self T = Some output
          ∧ df_columns output = df_columns T
          ∧ (∀ c, encs !! c = None → df_get output c = df_get T c)
          ∧ (∀ c enc, encs !! c = Some enc →
               ∃ s codes,
                 df_get T c = Some s
                 ∧ LabelEncoder.transform enc (s_values s) = Some codes
                 ∧ df_get output c = Some (mkSeries Int64 codes)).
Proof.
  intros Henc Hdata.
  pose proof (transform_store_spec self data h T Hdata) as Hspec.
  pose proof (is_fresh (dom h)) as Hfresh.
  simpl in Hspec.
  destruct (EncodeCategorical.transform_store self data h) as [result h'].
  destruct (EncodeCategorical.transform self T) as [output|] eqn:Htr.
  - injection Hspec as -> ->. split_and!.
    + intros a Ha. rewrite lookup_insert_ne; [done|]. by intros <-.
    + rewrite lookup_insert_ne; [done|]. intros Heq. apply Hfresh.
      rewrite Heq. by apply elem_of_dom.
    + done.
    + intros out [= <-]. split; [done|].
      destruct (EncodeCategorical_transform_inv self encs T output Henc Htr)
        as (Hok & Hcols & Hget).
      exists output. split_and!; [by rewrite lookup_insert_eq|done..| |].
      * intros c Hc. by rewrite Hget, Hc.
      * intros c enc Hc. specialize (Hget c). rewrite Hc in Hget.
        destruct (Hok c enc Hc) as [s' Hs']. rewrite Hs' in Hget.
        unfold EncodeCategorical.encode_column in Hs'.
        destruct (df_get T c) as [s|]; [|done]. simpl in Hs'.
        destruct (LabelEncoder.transform enc (s_values s)) as [codes|] eqn:Hcodes;
          [|done].
        simpl in Hs'. injection Hs' as <-. by exists s, codes.
  - simpl in Hspec. destruct Hspec as [-> Hh]. split_and!.
    + intros a Ha. apply Hh. by intros ->.
    + rewrite Hh; [done|]. intros Heq. apply Hfresh. rewrite <-Heq.
      by apply elem_of_dom.
    + done.
    + done.
Qed.

Lemma transform_leaves_input_and_unfitted_columns_witness :
  let T : DataFrame :=
    [ ("age", mkSeries Int64 [Num 39; Num 50]);
      ("sex", mkSeries Object [Str " Male"; Str " Female"]) ] in
  let encs : gmap string LabelEncoder.t :=
    {[ "sex" := LabelEncoder.fit [Str " Male"; Str " Female"] ]} in
  let self := EncodeCategorical.mk (Some ["sex"]) (Some encs) in
  let h : store := {[ 7 := T ]} in
  let '(result, h') := EncodeCategorical.transform_store self 7 h in
  (∀ a, a ∈ dom h → h' !! a = h !! a)
  ∧ h' !! 7 = Some T
  ∧ (result = None ↔ EncodeCategorical.transform self T = None)
  ∧ ∀ out, result = Some out →
      (out ∉ dom h)
      ∧ ∃ output,
          h' !! out = Some output
          ∧ EncodeCategorical.transform self T = Some output
          ∧ df_columns output = df_columns T
          ∧ (∀ c, encs !! c = None → df_get output c = df_get T c)
          ∧ (∀ c enc, encs !! c = Some enc →
               ∃ s codes,
                 df_get T c = Some s
                 ∧ LabelEncoder.transform enc (s_values s) = Some codes
                 ∧ df_get output c = Some (mkSeries Int64 codes)).
Proof.
  intros T encs self h.
  apply (transform_leaves_input_and_unfitted_columns self encs 7 h T);
    reflexivity.
Defined.

(** ** Re-applying a fitted encoder to its own output *)





(** ** Facts about the conversion to [float64] *)

Lemma round_float64_small (z : Z) :
  (Z.abs z ≤ 2 ^ 53)%Z → round_float64 z = z.
Proof.
  intros Hz. unfold round_float64.
  destruct (decide (Z.abs z = 2 ^ 53)%Z) as [Heq|Hne].
  - destruct (Z.abs_eq_or_opp z) as [Habs|Habs]; rewrite Habs in Heq.
    + subst z. by vm_compute.
    + assert (z = (- 2 ^ 53)%Z) as -> by lia. by vm_compute.
  - destruct (decide (Z.abs z = 0)%Z) as [H0|H0].
    + assert (z = 0%Z) as -> by lia. by vm_compute.
    + assert (Z.log2 (Z.abs z) < 53)%Z.
      { apply Z.log2_lt_pow2; lia. }
      by rewrite decide_True by lia.
Qed.

Lemma round_float64_bounds (z : Z) :
  (0 < Z.log2 (Z.abs z) - 52)%Z →
  let e := (Z.log2 (Z.abs z) - 52)%Z in
  ∃ q' : Z,
    round_float64 z = (Z.sgn z * (q' * 2 ^ e))%Z
    ∧ (2 ^ 52 ≤ q')%Z
    ∧ (q' * 2 ^ e ≤ Z.abs z + 2 ^ e)%Z.
Proof.
  intros He e. unfold round_float64. fold e.
  rewrite decide_False by lia.
  set (a := Z.abs z) in *.
  assert (0 < a)%Z as Ha.
  { destruct (decide (a = 0)%Z) as [H0|]; [|lia].
    rewrite H0 in He. simpl in He. lia. }
  assert (0 < 2 ^ e)%Z as Hpow by (apply Z.pow_pos_nonneg; lia).
  assert (2 ^ 52 ≤ a / 2 ^ e)%Z as Hq.
  { apply Z.div_le_lower_bound; [done|].
    rewrite <-Z.pow_add_r by lia.
    replace (e + 52)%Z with (Z.log2 a) by (unfold e; lia).
    by apply Z.log2_spec. }
  assert (a / 2 ^ e * 2 ^ e ≤ a)%Z as Hmul.
  { rewrite Z.mul_comm. apply Z.mul_div_le. done. }
  eexists. split; [done|].
  destruct (decide (a mod 2 ^ e < 2 ^ (e - 1))%Z);
    [|destruct (decide (2 ^ (e - 1) < a mod 2 ^ e)%Z);
      [|destruct (Z.even (a / 2 ^ e))]]; split; nia.
Qed.

Lemma round_float64_nonzero (z : Z) : z ≠ 0%Z → round_float64 z ≠ 0%Z.
Proof.
  intros Hz.
  destruct (decide (0 < Z.log2 (Z.abs z) - 52)%Z) as [He|He].
  - destruct (round_float64_bounds z He) as (q' & -> & Hq & _).
    assert (0 < 2 ^ (Z.log2 (Z.abs z) - 52))%Z by (apply Z.pow_pos_nonneg; lia).
    assert (Z.sgn z ≠ 0)%Z by (rewrite Z.sgn_null_iff; done).
    nia.
  - unfold round_float64. by rewrite decide_True by lia.
Qed.

Lemma float64_of_int64 (z : Z) :
  (Z.abs z < 2 ^ 63)%Z → float64_of_Z z = Some (round_float64 z).
Proof.
  intros Hz. unfold float64_of_Z. cbv zeta.
  rewrite decide_False; [done|].
  destruct (decide (0 < Z.log2 (Z.abs z) - 52)%Z) as [He|He].
  - destruct (round_float64_bounds z He) as (q' & -> & Hq & Hle).
    cbv zeta in Hle.
    assert (0 < Z.abs z)%Z as Hpos.
    { destruct (decide (Z.abs z = 0)%Z) as [H0|]; [|lia].
      rewrite H0 in He. simpl in He. lia. }
    assert (Z.log2 (Z.abs z) < 63)%Z by (apply Z.log2_lt_pow2; lia).
    assert (2 ^ (Z.log2 (Z.abs z) - 52) ≤ 2 ^ 10)%Z
      by (apply Z.pow_le_mono_r; lia).
    assert (0 < 2 ^ (Z.log2 (Z.abs z) - 52))%Z by (apply Z.pow_pos_nonneg; lia).
    assert (2 ^ 63 + 2 ^ 10 < 2 ^ 1024)%Z by (by vm_compute).
    rewrite Z.abs_mul.
    assert (0 ≤ Z.abs (Z.sgn z) ≤ 1)%Z by (destruct z; simpl; lia).
    set (p := (2 ^ (Z.log2 (Z.abs z) - 52))%Z) in *.
    assert (0 ≤ q' * p)%Z by nia.
    rewrite (Z.abs_eq (q' * p)) by done.
    set (x := (q' * p)%Z) in *.
    assert (Z.abs (Z.sgn z) * x ≤ x)%Z by nia.
    set (big := (2 ^ 1024)%Z) in *. set (c63 := (2 ^ 63)%Z) in *.
    set (c10 := (2 ^ 10)%Z) in *. lia.
  - unfold round_float64. rewrite decide_True by lia.
    assert (2 ^ 63 < 2 ^ 1024)%Z by (by vm_compute). lia.
Qed.

Lemma as_float64_int64 float_of_str (z : Z) :
  (Z.abs z < 2 ^ 63)%Z →
  as_float64 float_of_str (Num z) = Some (Num (round_float64 z)).
Proof. intros Hz. simpl. by rewrite float64_of_int64. Qed.

Example round_float64_beyond_53_bits :
  round_float64 (2 ^ 53 + 1) = (2 ^ 53)%Z
  ∧ round_float64 (2 ^ 53 + 3) = (2 ^ 53 + 4)%Z
  ∧ round_float64 (- (2 ^ 53 + 1)) = (- 2 ^ 53)%Z
  ∧ float64_of_Z (2 ^ 1024) = None.
Proof. by vm_compute. Qed.

(** ** Facts about [Imputer] *)

Lemma stats_mode_fold (a l : list cell) : ∀ old : cell * nat,
  let r := foldl (λ (old : cell * nat) score,
                    let counts := Imputer.count score a in
                    if decide (old.2 < counts) then (score, counts) else old)
                 old l in
  (∀ w, w ∈ l → Imputer.count w a ≤ r.2)
  ∧ old.2 ≤ r.2
  ∧ (r = old ∨ (r.1 ∈ l ∧ r.2 = Imputer.count r.1 a)).
Proof.
  induction l as [|x l IH]; intros old; simpl.
  - split_and!; [by intros w ?%elem_of_nil|done|by left].
  - specialize (IH (if decide (old.2 < Imputer.count x a)
                    then (x, Imputer.count x a) else old)).
    simpl in IH. destruct IH as (Hmax & Hmono & Hres).
    split_and!.
    + intros w [->|Hw]%elem_of_cons; [|by apply Hmax].
      destruct (decide (old.2 < Imputer.count x a)); simpl in Hmono; lia.
    + destruct (decide (old.2 < Imputer.count x a)); simpl in Hmono; lia.
    + destruct Hres as [Hres|[Hin Hcnt]].
      * destruct (decide (old.2 < Imputer.count x a)); [|by left].
        right. rewrite Hres. simpl. split; [by left|done].
      * right. split; [by right|done].
Qed.

Lemma count_pos v a : v ∈ a → 0 < Imputer.count v a.
Proof.
  unfold Imputer.count. intros Hv.
  assert (v ∈ filter (λ x, x = v) a) as Hin by by apply list_elem_of_filter.
  destruct (filter (λ x, x = v) a); [by apply elem_of_nil in Hin|simpl; lia].
Qed.

Lemma count_zero v a : v ∉ a → Imputer.count v a = 0.
Proof.
  unfold Imputer.count. intros Hv.
  destruct (filter (λ x, x = v) a) as [|w l] eqn:Hf; [done|].
  assert (w ∈ filter (λ x, x = v) a) as Hin by (rewrite Hf; by left).
  apply list_elem_of_filter in Hin as [-> Hin]. done.
Qed.

(** The mode of a non-empty array is one of its elements and no element
    occurs more often. *)
Lemma most_frequent_Some a :
  a ≠ [] →
  ∃ v, Imputer.most_frequent a = Some v
       ∧ v ∈ a
       ∧ ∀ w, Imputer.count w a ≤ Imputer.count v a.
Proof.
  intros Hne. unfold Imputer.most_frequent.
  destruct a as [|x a']; [done|]. set (a := x :: a').
  unfold Imputer.stats_mode.
  destruct (stats_mode_fold a (np_unique a) (Num 0, 0)) as (Hmax & _ & Hres).
  destruct (foldl _ _ _) as [v n]. simpl in Hmax, Hres.
  assert (0 < n) as Hpos.
  { assert (x ∈ a) as Hx by by left.
    pose proof (count_pos x a Hx).
    pose proof (Hmax x (proj2 (elem_of_np_unique x a) Hx)). lia. }
  destruct Hres as [[= -> ->]|[Hin ->]]; [lia|].
  rewrite decide_False by lia.
  exists v. split_and!; [done|by apply elem_of_np_unique|].
  intros w. destruct (decide (w ∈ a)) as [Hw|Hw].
  - apply Hmax. by apply (proj2 (elem_of_np_unique w (x :: a'))).
  - rewrite (count_zero w a Hw). lia.
Qed.

Lemma count_filter_ne (missing w : cell) a :
  w ≠ missing →
  Imputer.count w (filter (λ v, bool_decide (v = missing) = false) a)
  = Imputer.count w a.
Proof.
  intros Hw. unfold Imputer.count. induction a as [|x a IH]; [done|].
  rewrite !filter_cons.
  destruct (decide (bool_decide (x = missing) = false)) as [Hx|Hx].
  - rewrite filter_cons. destruct (decide (x = w)); simpl; by rewrite IH.
  - rewrite decide_False; [done|]. intros ->. destruct Hx.
    by apply bool_decide_eq_false.
Qed.

(** The statistic of a column with an observed value: an observed value of
    the column that is most frequent among the observed ones. *)
Lemma statistic_Some (self : Imputer.t) (column : list cell) (v0 : cell) :
  v0 ∈ column → v0 ≠ Num (Imputer.missing_values self) →
  ∃ value,
    Imputer.statistic self column = Some value
    ∧ value ∈ column
    ∧ value ≠ Num (Imputer.missing_values self)
    ∧ ∀ w, w ≠ Num (Imputer.missing_values self) →
           Imputer.count w column ≤ Imputer.count value column.
Proof.
  intros Hv0 Hne0. unfold Imputer.statistic, Imputer.is_missing.
  set (obs := filter _ column).
  assert (v0 ∈ obs) as Hobs.
  { apply list_elem_of_filter. split; [by apply bool_decide_eq_false|done]. }
  destruct (most_frequent_Some obs) as (value & -> & Hin & Hmax).
  { intros Heq. rewrite Heq in Hobs. by apply elem_of_nil in Hobs. }
  apply list_elem_of_filter in Hin as [Hval%bool_decide_eq_false Hin].
  exists value. split_and!; [done..|].
  intros w Hw. specialize (Hmax w). unfold obs in Hmax.
  by rewrite !count_filter_ne in Hmax.
Qed.



(** ** Facts about [ImputeCategorical] *)

Lemma df_select_Some data columns :
  Forall (λ c, c ∈ df_columns data) columns →
  ∃ X, df_select data columns = Some X
       ∧ Forall2 (λ c s, df_get data c = Some s) columns X.
Proof.
  intros Hall. unfold df_select.
  induction Hall as [|c columns Hc _ (X & HX & Hrel)]; simpl.
  - exists []. by split; [|constructor].
  - apply df_get_is_Some in Hc as [s Hs].
    exists (s :: X). rewrite Hs. simpl. rewrite HX. simpl.
    split; [done|by constructor].
Qed.

Lemma mapM_as_float64 float_of_str (s : Series) :
  Forall int64_cell (s_values s) →
  mapM (as_float64 float_of_str) (s_values s) = Some (float_values s).
Proof.
  intros Hnum. apply mapM_Some. unfold float_values.
  apply Forall2_fmap_r, Forall_Forall2_diag.
  eapply Forall_impl; [exact Hnum|]. intros v (z & -> & Hz).
  by apply as_float64_int64.
Qed.

Lemma check_array_Some float_of_str (X : list Series) :
  X ≠ [] →
  Forall (λ s, s_values s ≠ [] ∧ Forall int64_cell (s_values s)) X →
  Imputer.check_array float_of_str X = Some (float_values <$> X).
Proof.
  intros Hne Hall. unfold Imputer.check_array.
  destruct X as [|s X']; [done|].
  pose proof (Forall_inv Hall) as [Hs _].
  rewrite decide_False by done.
  apply mapM_Some. apply Forall2_fmap_r, Forall_Forall2_diag.
  eapply Forall_impl; [exact Hall|]. intros s' [_ Hnum].
  by apply mapM_as_float64.
Qed.

Lemma float_values_zero (s : Series) (k : nat) :
  float_values s !! k = Some (Num 0) ↔ s_values s !! k = Some (Num 0).
Proof.
  unfold float_values. rewrite list_lookup_fmap.
  destruct (s_values s !! k) as [[z|t]|]; simpl; [|done..].
  split; intros [= Hz]; [|by rewrite Hz].
  destruct (decide (z = 0%Z)) as [->|Hne]; [done|].
  by apply round_float64_nonzero in Hne.
Qed.

Lemma float_values_nonzero (s : Series) (v : cell) :
  v ∈ s_values s → v ≠ Num 0 →
  ∃ v', v' ∈ float_values s ∧ v' ≠ Num 0.
Proof.
  intros Hv Hne. destruct v as [z|t].
  - exists (Num (round_float64 z)). split.
    + unfold float_values.
      by apply (list_elem_of_fmap_2
                  (λ v, match v with
                        | Num z => Num (round_float64 z)
                        | Str t => Str t
                        end) (s_values s) (Num z)).
    + intros [= Hz]. apply Hne. f_equal.
      destruct (decide (z = 0%Z)) as [|Hz0]; [done|].
      by apply round_float64_nonzero in Hz0.
  - exists (Str t). split; [|done]. unfold float_values.
    by apply (list_elem_of_fmap_2
                (λ v, match v with
                      | Num z => Num (round_float64 z)
                      | Str t => Str t
                      end) (s_values s) (Str t)).
Qed.

Lemma float_values_small (s : Series) :
  Forall (λ v, ∃ z, v = Num z ∧ (Z.abs z ≤ 2 ^ 53)%Z) (s_values s) →
  float_values s = s_values s.
Proof.
  intros Hsmall. unfold float_values.
  induction Hsmall as [|v values (z & -> & Hz) _ IH]; [done|].
  rewrite fmap_cons, IH. by rewrite round_float64_small.
Qed.

(** [output[columns] = X] when every column of [X] is a function [F] of the
    name it is assigned to. *)
Lemma df_assign_Some (output : DataFrame) (F : string → list cell)
    (columns : list string) (X : list (list cell)) :
  Forall2 (λ c values, values = F c) columns X →
  ∃ output',
    ImputeCategorical.df_assign output columns X = Some output'
    ∧ ∀ c, df_get output' c
           = if decide (c ∈ columns) then Some (mkSeries Float64 (F c))
             else df_get output c.
Proof.
  intros Hrel. unfold ImputeCategorical.df_assign.
  rewrite decide_True by by eapply Forall2_length.
  eexists. split; [done|]. revert output.
  induction Hrel as [|c0 values columns X -> _ IH]; intros output c; simpl.
  - done.
  - rewrite IH. destruct (decide (c ∈ columns)) as [Hin|Hnin].
    + by rewrite decide_True by (by right).
    + rewrite df_get_set. destruct (decide (c0 = c)) as [->|Hne].
      * by rewrite decide_True by (by left).
      * rewrite decide_False; [done|]. rewrite elem_of_cons. naive_solver.
Qed.




Example impute_workclass_example :
  let T : DataFrame :=
    [ ("workclass", mkSeries Int64 [Num 4; Num 0; Num 4; Num 2]) ] in
  (self ← ImputeCategorical.fit (λ _, None)
            (ImputeCategorical.init (Some ["workclass"])) T None;
   ImputeCategorical.transform (λ _, None) self T)
  = Some [ ("workclass", mkSeries Float64 [Num 4; Num 4; Num 4; Num 2]) ].
Proof. by vm_compute. Qed.

Example impute_rounds_to_float64 :
  let T : DataFrame :=
    [ ("fnlwgt", mkSeries Int64 [Num (2 ^ 53 + 1); Num 0; Num (2 ^ 53 + 1)]) ] in
  (self ← ImputeCategorical.fit (λ _, None)
            (ImputeCategorical.init (Some ["fnlwgt"])) T None;
   ImputeCategorical.transform (λ _, None) self T)
  = Some [ ("fnlwgt",
            mkSeries Float64 [Num (2 ^ 53); Num (2 ^ 53); Num (2 ^ 53)]) ].
Proof. by vm_compute. Qed.

(** ** Facts about [meta] *)

Lemma series_unique_fold (values : list cell) : ∀ seen,
  let r := foldl (λ seen v, if decide (v ∈ seen) then seen else seen ++ [v])
                 seen values in
  (NoDup seen → NoDup r) ∧ ∀ v, v ∈ r ↔ v ∈ seen ∨ v ∈ values.
Proof.
  induction values as [|x values IH]; intros seen; simpl.
  - split; [done|]. intros v. rewrite elem_of_nil. tauto.
  - specialize (IH (if decide (x ∈ seen) then seen else seen ++ [x])).
    simpl in IH. destruct IH as [Hnd Hin]. split.
    + intros Hseen. apply Hnd. destruct (decide (x ∈ seen)); [done|].
      apply NoDup_app. split_and!; [done| |apply NoDup_singleton].
      intros y Hy ->%list_elem_of_singleton. done.
    + intros v. rewrite Hin, elem_of_cons.
      destruct (decide (x ∈ seen)) as [Hx|Hx].
      * naive_solver.
      * rewrite elem_of_app, list_elem_of_singleton. naive_solver.
Qed.

Lemma series_unique_NoDup values : NoDup (series_unique values).
Proof. apply (series_unique_fold values []), NoDup_nil_2. Qed.

Lemma elem_of_series_unique values v : v ∈ series_unique values ↔ v ∈ values.
Proof.
  unfold series_unique. rewrite (proj2 (series_unique_fold values []) v).
  rewrite elem_of_nil. tauto.
Qed.


Lemma series_unique_snoc (values : list cell) (x : cell) :
  series_unique (values ++ [x])
  = if decide (x ∈ series_unique values) then series_unique values
    else series_unique values ++ [x].
Proof. unfold series_unique. by rewrite foldl_app. Qed.

Lemma series_unique_length (values : list cell) :
  length (series_unique values) = length (remove_dups values).
Proof.
  apply Permutation_length, NoDup_Permutation.
  - apply series_unique_NoDup.
  - apply NoDup_remove_dups.
  - intros v. by rewrite elem_of_series_unique, elem_of_remove_dups.
Qed.

(** Order of first appearance: the value at position [k] of
    [series_unique values] first occurs in [values] at an index before which
    exactly [k] distinct values occur. *)
Lemma series_unique_first_appearance (values : list cell) :
  ∀ k v, series_unique values !! k = Some v →
    ∃ i, values !! i = Some v
         ∧ (v ∉ take i values)
         ∧ k = length (remove_dups (take i values)).
Proof.
  induction values as [|x values IH] using rev_ind; intros k v Hk; [done|].
  rewrite series_unique_snoc in Hk.
  assert (series_unique values !! k = Some v →
          ∃ i, (values ++ [x]) !! i = Some v
               ∧ (v ∉ take i (values ++ [x]))
               ∧ k = length (remove_dups (take i (values ++ [x])))) as Hold.
  { intros Hk'. destruct (IH k v Hk') as (i & Hi & Hnot & Hlen).
    pose proof (lookup_lt_Some _ _ _ Hi) as Hlt.
    exists i. rewrite lookup_app_l by done.
    rewrite take_app_le by lia. done. }
  destruct (decide (x ∈ series_unique values)) as [Hin|Hnin]; [by apply Hold|].
  apply lookup_app_Some in Hk as [Hk|[Hge Hk]]; [by apply Hold|].
  apply list_lookup_singleton_Some in Hk as [Hk0 <-].
  exists (length values).
  rewrite lookup_app_r, Nat.sub_diag by done.
  rewrite take_app_length. split_and!; [done| |].
  - by rewrite <-elem_of_series_unique.
  - rewrite <-series_unique_length. lia.
Qed.

Lemma object_domains_fold data columns : ∀ d : gmap string (list cell),
  ∀ c, foldl (λ (d : gmap string (list cell)) column,
                match df_get data column with
                | Some s =>
                    if decide (s_dtype s = Object)
                    then <[column := series_unique (s_values s)]> d
                    else d
                | None => d
                end) d columns !! c
       = if decide (c ∈ columns)
         then match domain_of data c with Some dom => Some dom | None => d !! c end
         else d !! c.
Proof.
  induction columns as [|column columns IH]; intros d c; simpl; [done|].
  rewrite IH. unfold domain_of.
  destruct (decide (c ∈ columns)) as [Hin|Hnin].
  - rewrite decide_True by (by right).
    destruct (df_get data c) as [s|] eqn:Hs; [|].
    + destruct (decide (s_dtype s = Object)); [done|].
      destruct (decide (column = c)) as [->|Hne].
      * rewrite Hs. by rewrite decide_False.
      * destruct (df_get data column) as [s'|]; [|done].
        destruct (decide (s_dtype s' = Object)); [|done].
        by rewrite lookup_insert_ne.
    + destruct (decide (column = c)) as [->|Hne]; [by rewrite Hs|].
      destruct (df_get data column) as [s'|]; [|done].
      destruct (decide (s_dtype s' = Object)); [|done].
      by rewrite lookup_insert_ne.
  - destruct (decide (column = c)) as [->|Hne].
    + rewrite decide_True by (by left).
      destruct (df_get data c) as [s|]; [|done].
      destruct (decide (s_dtype s = Object)); [|done].
      by rewrite lookup_insert_eq.
    + rewrite decide_False by (rewrite elem_of_cons; naive_solver).
      destruct (df_get data column) as [s'|]; [|done].
      destruct (decide (s_dtype s' = Object)); [|done].
      by rewrite lookup_insert_ne.
Qed.

Lemma object_domains_lookup data c :
  object_domains data !! c = domain_of data c.
Proof.
  unfold object_domains. rewrite object_domains_fold, lookup_empty.
  destruct (decide (c ∈ df_columns data)) as [Hin|Hnin].
  - by destruct (domain_of data c).
  - unfold domain_of. destruct (df_get data c) as [s|] eqn:Hs; [|done].
    destruct Hnin. apply df_get_is_Some. by eexists.
Qed.

(** C3, as stated, fails: on a frame with the columns of [names] the
    [feature_names] of [meta] contain the target column [income]. *)
Lemma meta_feature_names_contain_income :
  df_columns sample_data = names
  ∧ ∃ m, meta sample_data = Some m ∧ "income" ∈ feature_names m.
Proof.
  split; [reflexivity|]. eexists. split; [reflexivity|].
  apply (bool_decide_unpack _). vm_compute. exact I.
Qed.

(** C3, amended: on a frame [data] with the columns of [names], [meta] is
    defined; its feature names are the column names in order, with the target
    column [income] as the last of them (not excluded); its target names are
    the distinct values of the [income] column, without repetition and in
    order of first appearance (the name at position [k] first occurs in the
    column after exactly [k] distinct other values); and its categorical
    features map exactly the columns of dtype [object], each to the distinct
    values observed in the column, without repetition and in order of first
    appearance. *)
Theorem meta_of_training_data (data : DataFrame) :
  df_columns data = names →
  ∃ m income,
    meta data = Some m
    ∧ feature_names m = names
    ∧ last (feature_names m) = Some "income"
    ∧ ("income" ∉ but_last (feature_names m))
    ∧ df_get data "income" = Some income
    ∧ NoDup (target_names m)
    ∧ (∀ v, v ∈ target_names m ↔ v ∈ s_values income)
    ∧ (∀ k v, target_names m !! k = Some v →
         ∃ i, s_values income !! i = Some v
              ∧ (v ∉ take i (s_values income))
              ∧ k = length (remove_dups (take i (s_values income))))
    ∧ (∀ c s, df_get data c = Some s → s_dtype s = Object →
         ∃ domain, categorical_features m !! c = Some domain
                   ∧ NoDup domain
                   ∧ (∀ v, v ∈ domain ↔ v ∈ s_values s)
                   ∧ ∀ k v, domain !! k = Some v →
                       ∃ i, s_values s !! i = Some v
                            ∧ (v ∉ take i (s_values s))
                            ∧ k = length (remove_dups (take i (s_values s))))
    ∧ (∀ c domain, categorical_features m !! c = Some domain →
         ∃ s, df_get data c = Some s ∧ s_dtype s = Object).
Proof.
  intros Hcols.
  assert (is_Some (df_get data "income")) as [income Hincome].
  { apply df_get_is_Some. rewrite Hcols. apply (bool_decide_unpack _).
    vm_compute. exact I. }
  unfold meta. rewrite Hincome. simpl. eexists _, income.
  split; [done|]. simpl. rewrite Hcols. split_and!; [done|done| |done| | | | |].
  - apply (bool_decide_unpack _). vm_compute. exact I.
  - apply series_unique_NoDup.
  - apply elem_of_series_unique.
  - apply series_unique_first_appearance.
  - intros c s Hs Hobj. exists (series_unique (s_values s)).
    rewrite object_domains_lookup. unfold domain_of.
    rewrite Hs, decide_True by done.
    split_and!; [done|apply series_unique_NoDup|apply elem_of_series_unique|
                 apply series_unique_first_appearance].
  - intros c domain. rewrite object_domains_lookup. unfold domain_of.
    destruct (df_get data c) as [s|]; [|done].
    destruct (decide (s_dtype s = Object)); [|done]. intros _. by exists s.
Qed.

Lemma meta_of_training_data_witness :
  df_columns sample_data = names
  ∧ ∃ m income,
    meta sample_data = Some m
    ∧ feature_names m = names
    ∧ last (feature_names m) = Some "income"
    ∧ ("income" ∉ but_last (feature_names m))
    ∧ df_get sample_data "income" = Some income
    ∧ NoDup (target_names m)
    ∧ (∀ v, v ∈ target_names m ↔ v ∈ s_values income)
    ∧ (∀ k v, target_names m !! k = Some v →
         ∃ i, s_values income !! i = Some v
              ∧ (v ∉ take i (s_values income))
              ∧ k = length (remove_dups (take i (s_values income))))
    ∧ (∀ c s, df_get sample_data c = Some s → s_dtype s = Object →
         ∃ domain, categorical_features m !! c = Some domain
                   ∧ NoDup domain
                   ∧ (∀ v, v ∈ domain ↔ v ∈ s_values s)
                   ∧ ∀ k v, domain !! k = Some v →
                       ∃ i, s_values s !! i = Some v
                            ∧ (v ∉ take i (s_values s))
                            ∧ k = length (remove_dups (take i (s_values s))))
    ∧ (∀ c domain, categorical_features m !! c = Some domain →
         ∃ s, df_get sample_data c = Some s ∧ s_dtype s = Object).
Proof.
  split; [reflexivity|].
  apply (meta_of_training_data sample_data). reflexivity.
Defined.

(** ** The pipeline *)

Lemma fit_transform_ignores_target float_of_str (s : step) (X : DataFrame)
    (y y' : option (list cell)) :
  fit_transform float_of_str s X y = fit_transform float_of_str s X y'.
Proof. by destruct s. Qed.

Lemma pre_transform_ignores_target float_of_str
    (steps : list (string * step)) :
  ∀ X y y', pre_transform float_of_str steps X y
            = pre_transform float_of_str steps X y'.
Proof.
  induction steps as [|[name s] steps IH]; intros X y y'; simpl; [done|].
  rewrite (fit_transform_ignores_target float_of_str s X (Some y) (Some y')).
  destruct (fit_transform float_of_str s X (Some y')) as [[fitted Xt]|];
    simpl; [|done].
  by rewrite (IH Xt y y').
Qed.

(** C5: the pipeline [census] of [__main__].  [fit(X, y)] fits the encoder
    on [X] and transforms [X] with it, fits the imputer on that output and
    transforms it, and fits the classifier on the result and [y]; what the
    two transformers become, and the table the classifier is fitted on, do
    not depend on [y] (for any list of steps).  [predict] of a pipeline with
    fitted transformers runs their [transform] only, in order, and then the
    classifier's [predict]. *)
Theorem census_fit_then_predict
    (float_of_str : string → option Z)
    (LR : Type)
    (lr_fit : LR → DataFrame → list cell → option LR)
    (lr_predict : LR → DataFrame → option (list cell))
    (dataset : Bunch) (lr clf : LR) (X Xnew : DataFrame) (y : list cell)
    (e : EncodeCategorical.t) (i : ImputeCategorical.t) :
  let e0 := EncodeCategorical.init
              (Some (map_to_list (b_categorical_features dataset)).*1) in
  let i0 := ImputeCategorical.init
              (Some ["workclass"; "native-country"; "occupation"]) in
  pipeline_fit float_of_str LR lr_fit (census LR dataset lr) X y
  = (e' ← EncodeCategorical.fit e0 X (Some y);
     X1 ← EncodeCategorical.transform e' X;
     i' ← ImputeCategorical.fit float_of_str i0 X1 (Some y);
     X2 ← ImputeCategorical.transform float_of_str i' X1;
     clf' ← lr_fit lr X2 y;
     Some (mkPipeline LR [("encoder", Encoder e'); ("imputer", Imputer_ i')]
                      ("classifier", clf')))
  ∧ (∀ steps y', pre_transform float_of_str steps X y
                 = pre_transform float_of_str steps X y')
  ∧ pipeline_predict float_of_str LR lr_predict
      (mkPipeline LR [("encoder", Encoder e); ("imputer", Imputer_ i)]
                  ("classifier", clf)) Xnew
    = (X1 ← EncodeCategorical.transform e Xnew;
       X2 ← ImputeCategorical.transform float_of_str i X1;
       lr_predict clf X2).
Proof.
  intros e0 i0. split_and!.
  - unfold pipeline_fit, census. simpl. fold e0 i0.
    unfold fit_transform, step_fit, step_transform.
    destruct (EncodeCategorical.fit e0 X (Some y)) as [e'|]; simpl; [|done].
    destruct (EncodeCategorical.transform e' X) as [X1|]; simpl; [|done].
    destruct (ImputeCategorical.fit float_of_str i0 X1 (Some y)) as [i'|];
      simpl; [|done].
    destruct (ImputeCategorical.transform float_of_str i' X1) as [X2|];
      simpl; [|done].
    done.
  - intros steps y'. apply pre_transform_ignores_target.
  - unfold pipeline_predict. simpl.
    by destruct (EncodeCategorical.transform e Xnew).
Qed.

(** ** The test targets *)






Example y_true_example :
  y_true {| b_data := []; b_data_test := [];
            b_target := mkSeries Object [Str " <=50K"; Str " >50K"];
            b_target_test := mkSeries Object [Str " >50K."; Str " <=50K."];
            b_target_names := []; b_feature_names := [];
            b_categorical_features := ∅ |}
  = Some [Num 1; Num 0].
Proof. reflexivity. Qed.

(** ** The interactive loop *)

Lemma rejected_test valid line :
  truthy valid && not_in (" " +:+ line) valid = true ↔ rejected valid line.
Proof.
  unfold rejected, not_in. rewrite andb_true_iff, bool_decide_eq_true. done.
Qed.

Lemma prompt_rejects column valid line rest :
  rejected valid line →
  prompt_until_good column valid (line :: rest)
  = ( Raw_input ("enter " +:+ column +:+ " >")
      :: Print_not_valid (default [] valid)
      :: (prompt_until_good column valid rest).1,
      (prompt_until_good column valid rest).2 ).
Proof.
  intros Hrej%rejected_test. simpl. rewrite Hrej.
  by destruct (prompt_until_good column valid rest).
Qed.

Lemma prompt_accepts column valid line rest :
  ¬ rejected valid line →
  prompt_until_good column valid (line :: rest)
  = ([Raw_input ("enter " +:+ column +:+ " >")], Some (" " +:+ line, rest)).
Proof.
  intros Hacc. simpl.
  destruct (truthy valid && not_in (" " +:+ line) valid) eqn:Htest; [|done].
  by apply rejected_test in Htest.
Qed.

(** A session: the rejected lines, then the accepted one. *)
Lemma prompt_session column valid bad good rest :
  Forall (rejected valid) bad → ¬ rejected valid good →
  prompt_until_good column valid (bad ++ good :: rest)
  = (session_events column valid bad, Some (" " +:+ good, rest)).
Proof.
  intros Hbad Hgood. unfold session_events.
  induction Hbad as [|line bad Hline _ IH].
  - by apply prompt_accepts.
  - rewrite <-app_comm_cons, (prompt_rejects _ _ _ _ Hline), IH. done.
Qed.

(** Input that ends after rejected lines only: the loop never stores a
    value. *)
Lemma prompt_starves column valid bad :
  Forall (rejected valid) bad →
  prompt_until_good column valid bad = (session_events column valid bad, None).
Proof.
  intros Hbad. unfold session_events.
  induction Hbad as [|line bad Hline _ IH]; [done|].
  rewrite (prompt_rejects _ _ _ _ Hline), IH. done.
Qed.

Lemma read_features_sessions (m : Meta) (bad : string → list string)
    (answer : string → string) (rest : list string) (columns : list string) :
  (∀ c, c ∈ columns → c ≠ "fnlwgt" →
        Forall (rejected (categorical_features m !! c)) (bad c)
        ∧ ¬ rejected (categorical_features m !! c) (answer c)) →
  ∀ data,
    read_features m columns data
      (flat_map (λ c, bad c ++ [answer c])
                (filter (λ c, c ≠ "fnlwgt") columns) ++ rest)
    = ( flat_map (λ c, session_events c (categorical_features m !! c) (bad c))
                 (filter (λ c, c ≠ "fnlwgt") columns),
        Some (collected answer columns data, rest) ).
Proof.
  induction columns as [|c columns IH]; intros Hsess data; [done|].
  assert (∀ c', c' ∈ columns → c' ≠ "fnlwgt" →
            Forall (rejected (categorical_features m !! c')) (bad c')
            ∧ ¬ rejected (categorical_features m !! c') (answer c')) as Hsess'.
  { intros c' Hc'. apply Hsess. by right. }
  simpl. rewrite filter_cons.
  destruct (decide (c = "fnlwgt")) as [->|Hc].
  - rewrite decide_False by (intros H; by apply H). by rewrite IH.
  - rewrite decide_True by done. simpl.
    destruct (Hsess c) as [Hbad Hgood]; [by left|done|].
    rewrite <-!app_assoc. simpl.
    rewrite (prompt_session c _ (bad c) (answer c) _ Hbad Hgood).
    rewrite (IH Hsess'). done.
Qed.

(** C9, as stated, fails: [age] is numeric, it has no categorical domain, and
    [predict] prompts for it. *)
Lemma predict_prompts_for_numeric_age :
  ∃ m age,
    meta sample_data = Some m
    ∧ df_get sample_data "age" = Some age
    ∧ s_dtype age = Int64
    ∧ categorical_features m !! "age" = None
    ∧ Raw_input "enter age >"
      ∈ (predict (λ _, Some [Num 0])
                 (LabelEncoder.fit [Str " <=50K"; Str " >50K"]) m ["39"]).1.
Proof.
  eexists _, _. split_and!; [reflexivity|reflexivity|reflexivity|reflexivity|].
  apply (bool_decide_unpack _). vm_compute. exact I.
Qed.

(** C9, amended: [predict] prompts for every feature but the last
    ([income]) and [fnlwgt], numeric features included, in the order of
    [meta['feature_names']].  Given, for each prompted column, lines that are
    rejected (the column has a non-empty domain and the line with a blank
    prepended is not in it) followed by one that is not, it writes for each
    column a prompt and a complaint per rejected line and one more prompt,
    stores the accepted line with a blank prepended, stores [189778] for
    [fnlwgt] without reading anything, and ends by printing the label that
    [yencode] decodes from the model's prediction on that record.  As long as
    the input holds rejected lines only, the loop of a column stores
    nothing. *)
Theorem predict_session
    (model_predict : DataFrame → option (list cell))
    (yencode : LabelEncoder.t) (m : Meta)
    (bad : string → list string) (answer : string → string)
    (rest : list string) (label : cell) :
  let columns := but_last (feature_names m) in
  let asked := filter (λ c, c ≠ "fnlwgt") columns in
  (∀ c, c ∈ columns → c ≠ "fnlwgt" →
        Forall (rejected (categorical_features m !! c)) (bad c)
        ∧ ¬ rejected (categorical_features m !! c) (answer c)) →
  (yhat ← model_predict (row_frame (collected answer columns ∅));
   labels ← LabelEncoder.inverse_transform yencode yhat;
   head labels) = Some label →
  predict model_predict yencode m
    (flat_map (λ c, bad c ++ [answer c]) asked ++ rest)
  = ( flat_map (λ c, session_events c (categorical_features m !! c) (bad c))
               asked
      ++ [Print_prediction label],
      Some rest )
  ∧ ∀ c lines, Forall (rejected (categorical_features m !! c)) lines →
      prompt_until_good c (categorical_features m !! c) lines
      = (session_events c (categorical_features m !! c) lines, None).
Proof.
  intros columns asked Hsess Hlabel. split.
  - unfold predict. fold columns.
    rewrite (read_features_sessions m bad answer rest columns Hsess ∅).
    by rewrite Hlabel.
  - intros c lines. apply prompt_starves.
Qed.

Lemma predict_session_witness :
  let m := {| target_names := [Str " <=50K"; Str " >50K"];
              feature_names := ["age"; "fnlwgt"; "sex"; "income"];
              categorical_features :=
                {[ "sex" := [Str " Male"; Str " Female"] ]} |} in
  let yenc := LabelEncoder.fit [Str " <=50K"; Str " >50K"] in
  let model_predict : DataFrame → option (list cell) := λ _, Some [Num 1] in
  let bad : string → list string :=
    λ c, if decide (c = "sex") then ["male"; " Male"] else [] in
  let answer : string → string :=
    λ c, if decide (c = "sex") then "Male" else "39" in
  predict model_predict yenc m (["39"; "male"; " Male"; "Male"] ++ ["left"])
  = ( [ Raw_input "enter age >";
        Raw_input "enter sex >"; Print_not_valid [Str " Male"; Str " Female"];
        Raw_input "enter sex >"; Print_not_valid [Str " Male"; Str " Female"];
        Raw_input "enter sex >" ]
      ++ [Print_prediction (Str " >50K")],
      Some ["left"] )
  ∧ ∀ c lines, Forall (rejected (categorical_features m !! c)) lines →
      prompt_until_good c (categorical_features m !! c) lines
      = (session_events c (categorical_features m !! c) lines, None).
Proof.
  intros m yenc model_predict bad answer.
  apply (predict_session model_predict yenc m bad answer ["left"] (Str " >50K")).
  - intros c Hc Hne. simpl in Hc.
    apply elem_of_cons in Hc as [->|Hc]; [|apply elem_of_cons in Hc as [->|Hc]];
      [| |apply list_elem_of_singleton in Hc as ->].
    + split; [constructor|]. intros [Ht _]. vm_compute in Ht. discriminate.
    + done.
    + split.
      * repeat constructor; try reflexivity;
          apply (bool_decide_unpack _); vm_compute; exact I.
      * intros [_ Hn]. apply Hn. apply (bool_decide_unpack _). vm_compute.
        exact I.
  - reflexivity.
Defined.

(** C10: the loop for one prompted column.  The value stored is the line
    read with one blank prepended, and it is that string which is looked up
    in the domain: when the column has a non-empty domain, a line is accepted
    exactly when the line with the blank prepended is in the domain, and a
    line that is not is answered by a complaint and a new prompt; when the
    lookup of the domain returns nothing (or an empty list), every line is
    accepted at the first prompt. *)
Theorem prompt_stores_blank_prefixed_line
    (m : Meta) (column : string) (data : gmap string cell)
    (line : string) (rest : list string) :
  column ≠ "fnlwgt" →
  let valid := categorical_features m !! column in
  let prompt := Raw_input ("enter " +:+ column +:+ " >") in
  let accepted :=
    read_features m [column] data (line :: rest)
    = ([prompt], Some (<[column := Str (" " +:+ line)]> data, rest)) in
  (truthy valid = true →
     (accepted ↔ Str (" " +:+ line) ∈ default [] valid))
  ∧ (truthy valid = true → Str (" " +:+ line) ∉ default [] valid →
       read_features m [column] data (line :: rest)
       = ( prompt :: Print_not_valid (default [] valid)
           :: (read_features m [column] data rest).1,
           (read_features m [column] data rest).2 ))
  ∧ (truthy valid = false → accepted)
  ∧ (valid = None → accepted).
Proof.
  intros Hcol valid prompt accepted.
  assert (¬ rejected valid line → accepted) as Hacc.
  { intros Hok. unfold accepted. cbn [read_features].
    rewrite decide_False by done.
    fold valid. rewrite (prompt_accepts column valid line rest Hok).
    by rewrite app_nil_r. }
  assert (rejected valid line →
          read_features m [column] data (line :: rest)
          = ( prompt :: Print_not_valid (default [] valid)
              :: (read_features m [column] data rest).1,
              (read_features m [column] data rest).2 )) as Hrej.
  { intros Hbad. cbn [read_features]. rewrite decide_False by done.
    fold valid. rewrite (prompt_rejects column valid line rest Hbad).
    destruct (prompt_until_good column valid rest) as [out [[val rest']|]];
      simpl; by rewrite decide_False by done. }
  split_and!.
  - intros Htruthy. split.
    + intros Heq. destruct (decide (Str (" " +:+ line) ∈ default [] valid))
        as [Hin|Hnin]; [done|].
      unfold accepted in Heq.
      rewrite (Hrej (conj Htruthy Hnin)) in Heq. discriminate.
    + intros Hin. apply Hacc. intros [_ Hnin]. done.
  - intros Htruthy Hnin. by apply Hrej.
  - intros Hfalsy. apply Hacc. intros [Ht _]. congruence.
  - intros Hnone. apply Hacc. intros [Ht _]. rewrite Hnone in Ht. done.
Qed.

Lemma prompt_stores_blank_prefixed_line_witness :
  let m := {| target_names := [Str " <=50K"; Str " >50K"];
              feature_names := ["age"; "fnlwgt"; "sex"; "income"];
              categorical_features :=
                {[ "sex" := [Str " Male"; Str " Female"] ]} |} in
  let valid := categorical_features m !! "sex" in
  let prompt := Raw_input ("enter " +:+ "sex" +:+ " >") in
  let accepted :=
    read_features m ["sex"] ∅ ("Male" :: ["next"])
    = ([prompt], Some (<["sex" := Str (" " +:+ "Male")]> ∅, ["next"])) in
  (truthy valid = true →
     (accepted ↔ Str (" " +:+ "Male") ∈ default [] valid))
  ∧ (truthy valid = true → Str (" " +:+ "Male") ∉ default [] valid →
       read_features m ["sex"] ∅ ("Male" :: ["next"])
       = ( prompt :: Print_not_valid (default [] valid)
           :: (read_features m ["sex"] ∅ ["next"]).1,
           (read_features m ["sex"] ∅ ["next"]).2 ))
  ∧ (truthy valid = false → accepted)
  ∧ (valid = None → accepted).
Proof.
  intros m.
  apply (prompt_stores_blank_prefixed_line m "sex" ∅ "Male" ["next"]).
  discriminate.
Defined.

Example prompt_rejects_domain_string_with_blank :
  prompt_until_good "sex" (Some [Str " Male"; Str " Female"])
    [" Male"; "Male"]
  = ( [ Raw_input "enter sex >"; Print_not_valid [Str " Male"; Str " Female"];
        Raw_input "enter sex >" ],
      Some (" Male", []) ).
Proof. reflexivity. Qed.

(** ** More on [EncodeCategorical] and [LabelEncoder] *)

Lemma fit_encoders_fold_None data columns :
  foldl (λ acc column,
           d ← acc;
           s ← df_get data column;
           Some (<[column := LabelEncoder.fit (s_values s)]> d))
        (None : option (gmap string LabelEncoder.t)) columns = None.
Proof. by induction columns. Qed.

Lemma fit_encoders_fold_inv data columns : ∀ d : gmap string LabelEncoder.t,
  is_Some (foldl (λ acc column,
                    d ← acc;
                    s ← df_get data column;
                    Some (<[column := LabelEncoder.fit (s_values s)]> d))
                 (Some d) columns) →
  Forall (λ c, c ∈ df_columns data) columns.
Proof.
  induction columns as [|column columns IH]; intros d Hsome; [constructor|].
  simpl in Hsome. destruct (df_get data column) as [s|] eqn:Hs; simpl in Hsome.
  - constructor; [apply df_get_is_Some; by eexists|by eapply IH].
  - rewrite fit_encoders_fold_None in Hsome. by destruct Hsome.
Qed.

(** [EncodeCategorical.fit] with a list of columns returns exactly when every
    listed column is a column of the frame (a missing one is a [KeyError]);
    with [columns=None] it returns on every frame, and records the frame's
    own columns as the columns to encode. *)
Theorem encoder_fit_returns_iff_columns_present
    (data : DataFrame) (target : option (list cell)) :
  (∀ columns,
     is_Some (EncodeCategorical.fit
                (EncodeCategorical.init (Some columns)) data target)
     ↔ Forall (λ c, c ∈ df_columns data) columns)
  ∧ ∃ self,
      EncodeCategorical.fit (EncodeCategorical.init None) data target
      = Some self
      ∧ EncodeCategorical.columns self = Some (df_columns data).
Proof.
  split.
  - intros columns. split.
    + unfold EncodeCategorical.fit. simpl. intros [self Hself].
      destruct (foldl _ _ _) as [encs|] eqn:Hfold; [|done].
      eapply fit_encoders_fold_inv. rewrite Hfold. by eexists.
    + intros Hall.
      destruct (EncodeCategorical_fit_Some (Some columns) data target Hall)
        as (encs & -> & _). by eexists.
  - destruct (EncodeCategorical_fit_Some None data target) as (encs & -> & _).
    + simpl. apply Forall_forall. auto.
    + by eexists.
Qed.

(** A fitted encoder raises on a frame that lacks a fitted column, and on a
    frame in which a fitted column holds a value that the column did not
    hold in the frame it was fitted on. *)
Theorem encoder_transform_raises_on_unseen
    (columns : option (list string)) (T X : DataFrame)
    (target : option (list cell)) (c : string) :
  let cols := default (df_columns T) columns in
  Forall (λ c, c ∈ df_columns T) cols →
  c ∈ cols →
  (df_get X c = None
   ∨ ∃ s sT v, df_get X c = Some s ∧ df_get T c = Some sT
               ∧ v ∈ s_values s ∧ v ∉ s_values sT) →
  ∃ self,
    EncodeCategorical.fit (EncodeCategorical.init columns) T target = Some self
    ∧ EncodeCategorical.transform self X = None.
Proof.
  intros cols Hall Hc Hbad.
  destruct (EncodeCategorical_fit_Some columns T target Hall)
    as (encs & Hfit & Hencs).
  eexists. split; [done|].
  rewrite Forall_forall in Hall.
  destruct (proj2 (df_get_is_Some T c) (Hall c Hc)) as [sT HsT].
  eapply (EncodeCategorical_transform_None _ encs X c); [done| |].
  - rewrite Hencs, decide_True by done. by rewrite HsT.
  - unfold EncodeCategorical.encode_column.
    destruct Hbad as [->|(s & sT' & v & -> & HsT' & Hv & Hnew)]; [done|].
    simpl. rewrite LabelEncoder_transform_None; [done|].
    rewrite HsT in HsT'. injection HsT' as <-.
    intros Hseen. rewrite Forall_forall in Hseen.
    apply Hnew. apply elem_of_np_unique. by apply Hseen.
Qed.

Lemma encoder_transform_raises_on_unseen_witness :
  let T : DataFrame := [ ("sex", mkSeries Object [Str " Male"; Str " Female"]) ] in
  let X : DataFrame := [ ("sex", mkSeries Object [Str " Male"; Str " Other"]) ] in
  ∃ self,
    EncodeCategorical.fit (EncodeCategorical.init None) T None = Some self
    ∧ EncodeCategorical.transform self X = None.
Proof.
  intros T X.
  apply (encoder_transform_raises_on_unseen None T X None "sex").
  - apply (bool_decide_unpack _). vm_compute. exact I.
  - apply (bool_decide_unpack _). vm_compute. exact I.
  - right. exists (mkSeries Object [Str " Male"; Str " Other"]),
             (mkSeries Object [Str " Male"; Str " Female"]), (Str " Other").
    split_and!; [reflexivity|reflexivity| |].
    + apply (bool_decide_unpack _). vm_compute. exact I.
    + apply (bool_decide_unpack _). vm_compute. exact I.
Defined.

Lemma inverse_transform_codes classes (y : list cell) :
  StronglySorted cell_lt classes →
  Forall (λ v, v ∈ classes) y →
  LabelEncoder.inverse_transform (LabelEncoder.mk classes)
    (code_of classes <$> y) = Some y.
Proof.
  intros Hsorted Hall. unfold LabelEncoder.inverse_transform.
  apply mapM_Some, Forall2_fmap_l, Forall_Forall2_diag.
  eapply Forall_impl; [exact Hall|]. intros v Hv. simpl.
  rewrite decide_True by lia. rewrite Nat2Z.id.
  apply list_elem_of_lookup_1 in Hv as [i Hi].
  by rewrite (searchsorted_lookup classes Hsorted i v Hi).
Qed.

(** The label encoder [yencode] decodes what it encodes: encoding the
    training targets and decoding the codes gives the training targets
    back, and every code is the position of its label in the sorted array of
    distinct targets. *)
Theorem yencode_inverse_transform_of_transform (dataset : Bunch) :
  let target := s_values (b_target dataset) in
  ∃ codes,
    LabelEncoder.transform (yencode dataset) target = Some codes
    ∧ LabelEncoder.inverse_transform (yencode dataset) codes = Some target
    ∧ Forall2 (λ v code, ∃ i : nat,
                 code = Num (Z.of_nat i)
                 ∧ LabelEncoder.classes_ (yencode dataset) !! i = Some v)
              target codes.
Proof.
  intros target. unfold yencode. fold target.
  exists (code_of (np_unique target) <$> target).
  assert (Forall (λ v, v ∈ np_unique target) target) as Hall.
  { apply Forall_forall. intros v Hv. by apply elem_of_np_unique. }
  split_and!.
  - apply LabelEncoder_fit_transform.
  - apply inverse_transform_codes; [apply np_unique_sorted|done].
  - apply Forall2_fmap_r, Forall_Forall2_diag.
    eapply Forall_impl; [exact Hall|]. intros v Hv.
    exists (searchsorted (np_unique target) v). split; [done|]. simpl.
    apply list_elem_of_lookup_1 in Hv as [i Hi].
    by rewrite (searchsorted_lookup _ (np_unique_sorted target) i v Hi).
Qed.

Lemma np_unique_length (values : list cell) :
  length (np_unique values) = length (remove_dups values).
Proof.
  apply Permutation_length, NoDup_Permutation.
  - apply np_unique_NoDup.
  - apply NoDup_remove_dups.
  - intros v. by rewrite elem_of_np_unique, elem_of_remove_dups.
Qed.

Lemma sorted_lookup_lt (l : list cell) :
  StronglySorted cell_lt l →
  ∀ i j v w, l !! i = Some v → l !! j = Some w → i < j → cell_lt v w.
Proof.
  induction 1 as [|x l Hl IH Hx]; intros i j v w Hi Hj Hlt; [done|].
  destruct j as [|j]; [lia|]. simpl in Hj.
  destruct i as [|i]; simpl in Hi.
  - injection Hi as ->. rewrite Forall_forall in Hx.
    apply Hx. by apply (list_elem_of_lookup_2 l j w).
  - apply (IH i j v w Hi Hj). lia.
Qed.

Lemma searchsorted_mono (classes : list cell) (v w : cell) :
  StronglySorted cell_lt classes → v ∈ classes → w ∈ classes →
  (cell_lt v w ↔ searchsorted classes v < searchsorted classes w).
Proof.
  intros Hs [i Hi]%list_elem_of_lookup_1 [j Hj]%list_elem_of_lookup_1.
  rewrite (searchsorted_lookup classes Hs i v Hi),
          (searchsorted_lookup classes Hs j w Hj).
  split.
  - intros Hvw. destruct (Nat.lt_trichotomy i j) as [?|[->|Hji]]; [done| |].
    + rewrite Hi in Hj. injection Hj as ->. by apply cell_lt_irrefl in Hvw.
    + pose proof (sorted_lookup_lt classes Hs j i w v Hj Hi Hji) as Hwv.
      destruct (cell_lt_irrefl v). by etrans.
  - intros Hij. exact (sorted_lookup_lt classes Hs i j v w Hi Hj Hij).
Qed.

(** The codes that the encoder gives a fitted column of its training table
    are dense and keep the order of the values: with [k] distinct values in
    the column every code lies in [0 .. k-1], and a value smaller than
    another (numbers by value, strings by character code) has the smaller
    code. *)
Theorem encoder_codes_dense_and_ordered
    (columns : option (list string)) (T : DataFrame)
    (target : option (list cell)) :
  let cols := default (df_columns T) columns in
  Forall (λ c, c ∈ df_columns T) cols →
  ∃ self output,
    EncodeCategorical.fit (EncodeCategorical.init columns) T target = Some self
    ∧ EncodeCategorical.transform self T = Some output
    ∧ ∀ c, c ∈ cols →
        ∃ s codes,
          df_get T c = Some s
          ∧ df_get output c = Some (mkSeries Int64 codes)
          ∧ length codes = length (s_values s)
          ∧ ∀ i j v w, s_values s !! i = Some v → s_values s !! j = Some w →
              ∃ ci cj : nat,
                codes !! i = Some (Num (Z.of_nat ci))
                ∧ codes !! j = Some (Num (Z.of_nat cj))
                ∧ ci < length (remove_dups (s_values s))
                ∧ (cell_lt v w ↔ ci < cj).
Proof.
  intros cols Hall.
  destruct (EncodeCategorical_fit_transform columns T target Hall)
    as (encs & output & Hfit & _ & Htr & _ & Hget).
  eexists _, output. split_and!; [done..|].
  intros c Hc. rewrite Forall_forall in Hall.
  destruct (proj2 (df_get_is_Some T c) (Hall c Hc)) as [s Hs].
  exists s, (code_of (np_unique (s_values s)) <$> s_values s).
  split_and!; [done| |by rewrite length_fmap|].
  - rewrite Hget, decide_True, Hs by done. done.
  - intros i j v w Hi Hj.
    assert (v ∈ np_unique (s_values s)) as Hv
      by (apply elem_of_np_unique; by apply (list_elem_of_lookup_2 _ i v)).
    assert (w ∈ np_unique (s_values s)) as Hw
      by (apply elem_of_np_unique; by apply (list_elem_of_lookup_2 _ j w)).
    exists (searchsorted (np_unique (s_values s)) v),
           (searchsorted (np_unique (s_values s)) w).
    split_and!.
    + by rewrite list_lookup_fmap, Hi.
    + by rewrite list_lookup_fmap, Hj.
    + rewrite <-np_unique_length.
      by apply searchsorted_lt_length; [apply np_unique_sorted|].
    + by apply searchsorted_mono; [apply np_unique_sorted|..].
Qed.

Lemma encoder_codes_dense_and_ordered_witness :
  let T : DataFrame :=
    [ ("workclass", mkSeries Object [Str " Private"; Str " ?"; Str " Private"]) ] in
  ∃ self output,
    EncodeCategorical.fit (EncodeCategorical.init None) T None = Some self
    ∧ EncodeCategorical.transform self T = Some output
    ∧ ∀ c, c ∈ df_columns T →
        ∃ s codes,
          df_get T c = Some s
          ∧ df_get output c = Some (mkSeries Int64 codes)
          ∧ length codes = length (s_values s)
          ∧ ∀ i j v w, s_values s !! i = Some v → s_values s !! j = Some w →
              ∃ ci cj : nat,
                codes !! i = Some (Num (Z.of_nat ci))
                ∧ codes !! j = Some (Num (Z.of_nat cj))
                ∧ ci < length (remove_dups (s_values s))
                ∧ (cell_lt v w ↔ ci < cj).
Proof.
  intros T. apply (encoder_codes_dense_and_ordered None T None).
  apply (bool_decide_unpack _). vm_compute. exact I.
Defined.

Example missing_marker_gets_code_zero :
  (self ← EncodeCategorical.fit (EncodeCategorical.init None)
            [ ("workclass", mkSeries Object
                 [Str " Private"; Str " ?"; Str " State-gov"]) ] None;
   EncodeCategorical.transform self
     [ ("workclass", mkSeries Object
          [Str " Private"; Str " ?"; Str " State-gov"]) ])
  = Some [ ("workclass", mkSeries Int64 [Num 1; Num 0; Num 2]) ].
Proof. vm_compute. reflexivity. Qed.

(** ** The imputer on a table other than the one it was fitted on *)

Lemma impute_columns (imp self : Imputer.t) (X : list (list cell)) :
  Imputer.missing_values imp = Imputer.missing_values self →
  Forall (λ column, is_Some (Imputer.statistic self column)) X →
  ∀ X', length X' = length X →
  let Xt := omap (λ p : list cell * option cell,
                    match p.2 with
                    | None => None
                    | Some value => Some (Imputer.impute imp value p.1)
                    end)
                 (zip X' (Imputer.statistic self <$> X)) in
  length Xt = length X
  ∧ ∀ i column column', X !! i = Some column → X' !! i = Some column' →
      ∃ value, Imputer.statistic self column = Some value
               ∧ Xt !! i = Some (Imputer.impute self value column').
Proof.
  intros Himp Hall.
  induction Hall as [|column X [value Hvalue] _ IH]; intros X' Hlen.
  - destruct X'; [|done]. split; [done|]. by intros i ? ? ?.
  - destruct X' as [|column' X']; [done|]. simpl in Hlen.
    destruct (IH X') as [IHlen IHlook]; [lia|].
    cbv zeta. rewrite fmap_cons. cbn [zip zip_with omap list_omap].
    rewrite Hvalue. cbn [snd fst]. split; [simpl; by rewrite IHlen|].
    intros [|i] col col' Hi Hi'; simpl in Hi, Hi'.
    + injection Hi as <-. injection Hi' as <-. exists value.
      split; [done|]. unfold Imputer.impute, Imputer.is_missing.
      by rewrite Himp.
    + by apply IHlook.
Qed.

Lemma Imputer_transform_fitted (self : Imputer.t) (X : list (list cell)) :
  Forall (λ column, is_Some (Imputer.statistic self column)) X →
  ∀ X', length X' = length X →
  ∃ Xt,
    Imputer.transform (Imputer.fit self X) X' = Some Xt
    ∧ length Xt = length X
    ∧ ∀ i column column', X !! i = Some column → X' !! i = Some column' →
        ∃ value, Imputer.statistic self column = Some value
                 ∧ Xt !! i = Some (Imputer.impute self value column').
Proof.
  intros Hall X' Hlen. unfold Imputer.transform. simpl.
  rewrite length_fmap, decide_False by (intros H; by apply H).
  eexists. split; [done|].
  by apply (impute_columns (Imputer.fit self X) self X).
Qed.

(** An imputer fitted on a training table [T] and applied to another table
    [X] fills the sentinel entries of [X] with the statistics of [T]: in each
    designated column, converted to [float64], every [0] of [X] becomes the
    most frequent non-zero value of that column in [T], whatever [X] holds,
    the other entries of the converted column stay (and the conversion
    changes no entry of magnitude up to [2^53]), and the columns that are not
    designated are those of [X].  The designated columns must hold [int64]
    values in both tables, a non-zero entry in [T], and be non-empty in
    [X]. *)
Theorem imputer_fills_with_training_statistics
    (float_of_str : string → option Z)
    (columns : option (list string)) (T X : DataFrame)
    (target : option (list cell)) :
  let cols := default (df_columns T) columns in
  cols ≠ [] →
  (∀ c, c ∈ cols →
     ∃ s, df_get T c = Some s
          ∧ Forall int64_cell (s_values s)
          ∧ ∃ v, v ∈ s_values s ∧ v ≠ Num 0) →
  (∀ c, c ∈ cols →
     ∃ s, df_get X c = Some s
          ∧ s_values s ≠ []
          ∧ Forall int64_cell (s_values s)) →
  ∃ self output,
    ImputeCategorical.fit float_of_str (ImputeCategorical.init columns)
      T target = Some self
    ∧ ImputeCategorical.transform float_of_str self X = Some output
    ∧ (∀ c, c ∉ cols → df_get output c = df_get X c)
    ∧ ∀ c, c ∈ cols →
        ∃ sT sX value,
          df_get T c = Some sT
          ∧ df_get X c = Some sX
          ∧ Imputer.statistic (Imputer.mk 0 None) (float_values sT)
            = Some value
          ∧ value ≠ Num 0
          ∧ df_get output c
            = Some (mkSeries Float64
                      ((λ v, if decide (v = Num 0) then value else v)
                       <$> float_values sX))
          ∧ (∀ k, float_values sX !! k = Some (Num 0)
                  ↔ s_values sX !! k = Some (Num 0))
          ∧ (Forall (λ v, ∃ z, v = Num z ∧ (Z.abs z ≤ 2 ^ 53)%Z)
                    (s_values sX) →
             float_values sX = s_values sX).
Proof.
  intros cols Hne HT HX.
  set (imp0 := Imputer.mk 0 None).
  assert (∀ data : DataFrame,
            (∀ c, c ∈ cols → ∃ s, df_get data c = Some s) →
            ∃ S, df_select data cols = Some S
                 ∧ Forall2 (λ c s, df_get data c = Some s) cols S) as Hsel.
  { intros data Hdata. apply df_select_Some, Forall_forall. intros c Hc.
    apply df_get_is_Some. destruct (Hdata c Hc) as [s Hs]. by eexists. }
  destruct (Hsel T) as (ST & HST & HrelT).
  { intros c Hc. destruct (HT c Hc) as (s & Hs & _). by eexists. }
  destruct (Hsel X) as (SX & HSX & HrelX).
  { intros c Hc. destruct (HX c Hc) as (s & Hs & _). by eexists. }
  assert (∀ (data : DataFrame) (S : list Series),
            Forall2 (λ c s, df_get data c = Some s) cols S →
            (∀ c, c ∈ cols → ∃ s, df_get data c = Some s ∧ s_values s ≠ []
                                  ∧ Forall int64_cell (s_values s)) →
            Imputer.check_array float_of_str S = Some (float_values <$> S))
    as Hcheck.
  { intros data S Hrel Hok. apply check_array_Some.
    - intros ->. apply Forall2_nil_inv_r in Hrel. done.
    - apply Forall_forall. intros s Hs.
      apply list_elem_of_lookup_1 in Hs as [i Hi].
      destruct (Forall2_lookup_r _ _ _ _ _ Hrel Hi) as (c & Hc & Hget).
      destruct (Hok c (list_elem_of_lookup_2 _ _ _ Hc))
        as (s' & Hs' & Hnil & Hnum).
      rewrite Hget in Hs'. by injection Hs' as <-. }
  assert (Imputer.check_array float_of_str ST = Some (float_values <$> ST))
    as HcheckT.
  { apply (Hcheck T ST HrelT). intros c Hc.
    destruct (HT c Hc) as (s & Hs & Hnum & v & Hv & _).
    exists s. split_and!; [done| |done]. intros Hnil. rewrite Hnil in Hv.
    by apply elem_of_nil in Hv. }
  assert (Imputer.check_array float_of_str SX = Some (float_values <$> SX))
    as HcheckX by by apply (Hcheck X SX HrelX).
  assert (∀ c sT, c ∈ cols → df_get T c = Some sT →
            ∃ value, Imputer.statistic imp0 (float_values sT) = Some value
                     ∧ value ≠ Num 0) as Hstat.
  { intros c sT Hc HsT. destruct (HT c Hc) as (s & Hs & _ & v & Hv & Hv0).
    rewrite HsT in Hs. injection Hs as <-.
    destruct (float_values_nonzero sT v Hv Hv0) as (v' & Hv' & Hv'0).
    destruct (statistic_Some imp0 (float_values sT) v' Hv' Hv'0)
      as (value & Hvalue & _ & Hvne & _). by exists value. }
  destruct (Imputer_transform_fitted imp0 (float_values <$> ST))
    with (X' := float_values <$> SX) as (Xt & HXt & HlenXt & Hlook).
  { apply Forall_fmap, Forall_forall. intros s Hs. simpl.
    apply list_elem_of_lookup_1 in Hs as [i Hi].
    destruct (Forall2_lookup_r _ _ _ _ _ HrelT Hi) as (c & Hc & Hget).
    destruct (Hstat c s (list_elem_of_lookup_2 _ _ _ Hc) Hget)
      as (value & -> & _).
    by eexists. }
  { rewrite !length_fmap. rewrite <-(Forall2_length _ _ _ HrelT).
    by rewrite <-(Forall2_length _ _ _ HrelX). }
  set (F := λ c : string,
         match df_get T c, df_get X c with
         | Some sT, Some sX =>
             match Imputer.statistic imp0 (float_values sT) with
             | Some value => Imputer.impute imp0 value (float_values sX)
             | None => []
             end
         | _, _ => []
         end).
  assert (Forall2 (λ c values, values = F c) cols Xt) as HF.
  { apply Forall2_same_length_lookup. split.
    - rewrite HlenXt, length_fmap. by eapply Forall2_length.
    - intros i c values Hc Hvalues.
      destruct (Forall2_lookup_l _ _ _ _ _ HrelT Hc) as (sT & HiT & HsT).
      destruct (Forall2_lookup_l _ _ _ _ _ HrelX Hc) as (sX & HiX & HsX).
      destruct (Hlook i (float_values sT) (float_values sX))
        as (value & Hvalue & Hi).
      { by rewrite list_lookup_fmap, HiT. }
      { by rewrite list_lookup_fmap, HiX. }
      rewrite Hvalues in Hi. injection Hi as ->.
      unfold F. by rewrite HsT, HsX, Hvalue. }
  destruct (df_assign_Some X F cols Xt HF) as (output & Hassign & Hget).
  exists (ImputeCategorical.mk (Some cols)
            (Some (Imputer.fit imp0 (float_values <$> ST)))), output.
  split_and!.
  - unfold ImputeCategorical.fit. simpl. fold cols. rewrite HST. simpl.
    by rewrite HcheckT.
  - unfold ImputeCategorical.transform. simpl. rewrite HSX. simpl.
    rewrite HcheckX. simpl. by rewrite HXt.
  - intros c Hc. by rewrite Hget, decide_False.
  - intros c Hc.
    destruct (HT c Hc) as (sT & HsT & _). destruct (HX c Hc) as (sX & HsX & _).
    destruct (Hstat c sT Hc HsT) as (value & Hvalue & Hvne).
    exists sT, sX, value. split_and!; [done..| | |].
    + rewrite Hget, decide_True by done. unfold F. rewrite HsT, HsX, Hvalue.
      do 2 f_equal. unfold Imputer.impute, Imputer.is_missing. simpl.
      apply list_fmap_ext. intros _ w _.
      by destruct (decide (w = Num 0)) as [->|?];
        [rewrite bool_decide_eq_true_2|rewrite bool_decide_eq_false_2].
    + apply float_values_zero.
    + apply float_values_small.
Qed.

Lemma imputer_fills_with_training_statistics_witness :
  let T : DataFrame :=
    [ ("workclass", mkSeries Int64 [Num 4; Num 0; Num 4; Num 2]) ] in
  let X : DataFrame :=
    [ ("age", mkSeries Int64 [Num 25; Num 38]);
      ("workclass", mkSeries Int64 [Num 0; Num 2]) ] in
  let cols := ["workclass"] in
  let float_of_str : string → option Z := λ _, None in
  ∃ self output,
    ImputeCategorical.fit float_of_str (ImputeCategorical.init (Some cols))
      T None = Some self
    ∧ ImputeCategorical.transform float_of_str self X = Some output
    ∧ (∀ c, c ∉ cols → df_get output c = df_get X c)
    ∧ ∀ c, c ∈ cols →
        ∃ sT sX value,
          df_get T c = Some sT
          ∧ df_get X c = Some sX
          ∧ Imputer.statistic (Imputer.mk 0 None) (float_values sT)
            = Some value
          ∧ value ≠ Num 0
          ∧ df_get output c
            = Some (mkSeries Float64
                      ((λ v, if decide (v = Num 0) then value else v)
                       <$> float_values sX))
          ∧ (∀ k, float_values sX !! k = Some (Num 0)
                  ↔ s_values sX !! k = Some (Num 0))
          ∧ (Forall (λ v, ∃ z, v = Num z ∧ (Z.abs z ≤ 2 ^ 53)%Z)
                    (s_values sX) →
             float_values sX = s_values sX).
Proof.
  intros T X cols float_of_str.
  apply (imputer_fills_with_training_statistics float_of_str (Some cols) T X None).
  - discriminate.
  - intros c Hc. apply list_elem_of_singleton in Hc as ->.
    exists (mkSeries Int64 [Num 4; Num 0; Num 4; Num 2]).
    split; [reflexivity|]. split.
    + simpl. repeat constructor; (eexists; split; [reflexivity|by vm_compute]).
    + exists (Num 4). split; [by left|discriminate].
  - intros c Hc. apply list_elem_of_singleton in Hc as ->.
    exists (mkSeries Int64 [Num 0; Num 2]).
    split; [reflexivity|]. split; [discriminate|].
    simpl. repeat constructor; (eexists; split; [reflexivity|by vm_compute]).
Defined.

(** ** [load_data] *)








(** ** More on the interactive loop *)

Lemma prompt_until_good_events column valid stdin :
  Forall (λ e, e = Raw_input ("enter " +:+ column +:+ " >")
               ∨ e = Print_not_valid (default [] valid))
         (prompt_until_good column valid stdin).1
  ∧ ∀ val rest, (prompt_until_good column valid stdin).2 = Some (val, rest) →
      length rest < length stdin.
Proof.
  induction stdin as [|line stdin [IHout IHrest]].
  - simpl. split; [repeat constructor; by left|done].
  - cbn [prompt_until_good].
    destruct (truthy valid && not_in (" " +:+ line) valid).
    + destruct (prompt_until_good column valid stdin) as [out r].
      simpl in *. split.
      * constructor; [by left|]. constructor; [by right|done].
      * intros val rest Hr. specialize (IHrest val rest Hr). lia.
    + simpl. split; [repeat constructor; by left|].
      intros val rest [= <- <-]. lia.
Qed.

Lemma read_features_events (m : Meta) (columns : list string) :
  ∀ data stdin,
    Forall (λ e, (∃ c, c ∈ columns ∧ c ≠ "fnlwgt"
                       ∧ e = Raw_input ("enter " +:+ c +:+ " >"))
                 ∨ ∃ valid, e = Print_not_valid valid)
           (read_features m columns data stdin).1
    ∧ ∀ data' rest,
        (read_features m columns data stdin).2 = Some (data', rest) →
        length rest + length (filter (λ c, c ≠ "fnlwgt") columns)
        ≤ length stdin.
Proof.
  induction columns as [|column columns IH]; intros data stdin.
  - simpl. split; [constructor|]. intros data' rest [= <- <-]. simpl. lia.
  - cbn [read_features]. rewrite filter_cons.
    destruct (decide (column = "fnlwgt")) as [->|Hne].
    + rewrite decide_False by (intros H; by apply H).
      destruct (IH (<["fnlwgt" := Num 189778]> data) stdin) as [IHout IHrest].
      split; [|done].
      eapply Forall_impl; [exact IHout|].
      intros e [(c & Hc & Hcne & ->)|Hnv]; [left|by right].
      exists c. split_and!; [by right|done..].
    + rewrite decide_True by done.
      destruct (prompt_until_good_events column
                  (categorical_features m !! column) stdin) as [Hout Hrest].
      destruct (prompt_until_good column _ stdin) as [out [[val rest1]|]];
        simpl in Hout, Hrest.
      * specialize (Hrest val rest1 eq_refl).
        destruct (IH (<[column := Str val]> data) rest1) as [IHout IHrest].
        destruct (read_features m columns _ rest1) as [out' r'].
        simpl in *. split.
        -- apply Forall_app. split.
           ++ eapply Forall_impl; [exact Hout|].
              intros e [-> | ->]; [left|right; by eexists].
              exists column. split_and!; [by left|done..].
           ++ eapply Forall_impl; [exact IHout|].
              intros e [(c & Hc & Hcne & ->)|Hnv]; [left|by right].
              exists c. split_and!; [by right|done..].
        -- intros data' rest Hr. specialize (IHrest data' rest Hr). lia.
      * simpl. split; [|done].
        eapply Forall_impl; [exact Hout|].
        intros e [-> | ->]; [left|right; by eexists].
        exists column. split_and!; [by left|done..].
Qed.

Lemma prompt_names_column (c : string) :
  "enter " +:+ c +:+ " >" = "enter fnlwgt >" → c = "fnlwgt".
Proof.
  intros H. injection H as H.
  do 6 (destruct c as [|? c]; [discriminate|]; injection H as -> H).
  destruct c as [|? c]; [done|]. injection H as -> H.
  destruct c as [|? c]; [discriminate|]. injection H as -> H.
  destruct c; discriminate.
Qed.

(** [predict] never asks for [fnlwgt]: whatever the input, every prompt it
    writes names a feature other than the last one and other than [fnlwgt],
    and the prompt for [fnlwgt] is not among what it writes. *)
Theorem predict_never_prompts_for_fnlwgt
    (model_predict : DataFrame → option (list cell))
    (yencode : LabelEncoder.t) (m : Meta) (stdin : list string) :
  (∀ prompt, Raw_input prompt ∈ (predict model_predict yencode m stdin).1 →
     ∃ c, c ∈ but_last (feature_names m) ∧ c ≠ "fnlwgt"
          ∧ prompt = "enter " +:+ c +:+ " >")
  ∧ Raw_input "enter fnlwgt >" ∉ (predict model_predict yencode m stdin).1.
Proof.
  assert (∀ prompt,
            Raw_input prompt ∈ (predict model_predict yencode m stdin).1 →
            ∃ c, c ∈ but_last (feature_names m) ∧ c ≠ "fnlwgt"
                 ∧ prompt = "enter " +:+ c +:+ " >") as Hprompts.
  { intros prompt. unfold predict.
    destruct (read_features_events m (but_last (feature_names m)) ∅ stdin)
      as [Hout _].
    destruct (read_features m _ ∅ stdin) as [out [[data rest]|]];
      simpl in Hout.
    - assert (Raw_input prompt ∈ out →
              ∃ c, c ∈ but_last (feature_names m) ∧ c ≠ "fnlwgt"
                   ∧ prompt = "enter " +:+ c +:+ " >") as Hin.
      { intros Hin. rewrite Forall_forall in Hout.
        destruct (Hout _ Hin) as [(c & Hc & Hne & [= ->])|[valid [=]]].
        by exists c. }
      destruct (_ ≫= _) as [label|]; simpl; [|done].
      rewrite elem_of_app, list_elem_of_singleton. intros [?|[=]]. auto.
    - simpl. intros Hin. rewrite Forall_forall in Hout.
      destruct (Hout _ Hin) as [(c & Hc & Hne & [= ->])|[valid [=]]].
      by exists c. }
  split; [done|].
  intros Hin. destruct (Hprompts _ Hin) as (c & _ & Hne & Heq).
  symmetry in Heq. by apply prompt_names_column in Heq.
Qed.

(** When the input ends before every prompted feature got a line,
    [raw_input] raises at the end of input: [predict] does not return and
    prints no prediction. *)
Theorem predict_raises_at_end_of_input
    (model_predict : DataFrame → option (list cell))
    (yencode : LabelEncoder.t) (m : Meta) (stdin : list string) :
  length stdin
  < length (filter (λ c, c ≠ "fnlwgt") (but_last (feature_names m))) →
  (predict model_predict yencode m stdin).2 = None
  ∧ ∀ label,
      Print_prediction label ∉ (predict model_predict yencode m stdin).1.
Proof.
  intros Hshort. unfold predict.
  destruct (read_features_events m (but_last (feature_names m)) ∅ stdin)
    as [Hout Hrest].
  destruct (read_features m _ ∅ stdin) as [out [[data rest]|]];
    simpl in Hout, Hrest.
  - specialize (Hrest data rest eq_refl). lia.
  - simpl. split; [done|]. intros label Hin. rewrite Forall_forall in Hout.
    by destruct (Hout _ Hin) as [(c & _ & _ & [=])|[valid [=]]].
Qed.

Lemma predict_raises_at_end_of_input_witness :
  let m := {| target_names := [Str " <=50K"; Str " >50K"];
              feature_names := ["age"; "fnlwgt"; "sex"; "income"];
              categorical_features :=
                {[ "sex" := [Str " Male"; Str " Female"] ]} |} in
  let yenc := LabelEncoder.fit [Str " <=50K"; Str " >50K"] in
  let model_predict : DataFrame → option (list cell) := λ _, Some [Num 1] in
  (predict model_predict yenc m ["39"]).2 = None
  ∧ ∀ label, Print_prediction label ∉ (predict model_predict yenc m ["39"]).1.
Proof.
  intros m yenc model_predict.
  apply (predict_raises_at_end_of_input model_predict yenc m ["39"]).
  vm_compute. lia.
Defined.

(** ** More on [__main__] *)

(** [y_true] raises when a test target is not a string (it has no
    [rstrip]) and when a test target, stripped of its trailing periods, is
    not one of the training targets ([yencode] has not seen the label). *)
Theorem y_true_raises_on_unseen_target (dataset : Bunch) :
  ((∃ z, Num z ∈ s_values (b_target_test dataset))
   ∨ ∃ u, Str u ∈ s_values (b_target_test dataset)
          ∧ Str (rstrip u ".") ∉ s_values (b_target dataset)) →
  y_true dataset = None.
Proof.
  intros Hbad. unfold y_true.
  destruct (mapM rstrip_period (s_values (b_target_test dataset)))
    as [stripped|] eqn:Hstripped; [|done].
  simpl. apply mapM_Some in Hstripped.
  apply LabelEncoder_transform_None. intros Hall.
  destruct Hbad as [[z Hz]|(u & Hu & Hnew)].
  - apply list_elem_of_lookup_1 in Hz as [i Hi].
    destruct (Forall2_lookup_l _ _ _ _ _ Hstripped Hi) as (y & _ & Hy).
    discriminate.
  - apply list_elem_of_lookup_1 in Hu as [i Hi].
    destruct (Forall2_lookup_l _ _ _ _ _ Hstripped Hi) as (y & Hy & Heq).
    injection Heq as <-. rewrite Forall_forall in Hall.
    apply Hnew. apply elem_of_np_unique.
    apply (Hall (Str (rstrip u "."))). by apply (list_elem_of_lookup_2 _ i).
Qed.

Lemma y_true_raises_on_unseen_target_witness :
  y_true {| b_data := []; b_data_test := [];
            b_target := mkSeries Object [Str " <=50K"; Str " <=50K"];
            b_target_test := mkSeries Object [Str " <=50K."; Str " >50K."];
            b_target_names := []; b_feature_names := [];
            b_categorical_features := ∅ |}
  = None.
Proof.
  apply y_true_raises_on_unseen_target. right. exists " >50K.". split.
  - apply (bool_decide_unpack _). vm_compute. exact I.
  - apply (bool_decide_unpack _). vm_compute. exact I.
Defined.

(** ** The encoder on a table other than the one it was fitted on *)

(** An encoder fitted on a training table [T] encodes another table [X]
    with the codes of [T]: when every fitted column of [X] holds only values
    that the column holds in [T], [transform] returns, a value of [X] gets
    the position it has among the sorted distinct values of the column in
    [T] (the code it gets in the encoded training table), and the columns
    without an encoder are those of [X]. *)
Theorem encoder_encodes_with_training_codes
    (columns : option (list string)) (T X : DataFrame)
    (target : option (list cell)) :
  let cols := default (df_columns T) columns in
  Forall (λ c, c ∈ df_columns T) cols →
  (∀ c, c ∈ cols →
     ∃ sT sX, df_get T c = Some sT ∧ df_get X c = Some sX
              ∧ ∀ v, v ∈ s_values sX → v ∈ s_values sT) →
  ∃ self output,
    EncodeCategorical.fit (EncodeCategorical.init columns) T target = Some self
    ∧ EncodeCategorical.transform self X = Some output
    ∧ df_columns output = df_columns X
    ∧ (∀ c, c ∉ cols → df_get output c = df_get X c)
    ∧ ∀ c, c ∈ cols →
        ∃ sT sX,
          df_get T c = Some sT ∧ df_get X c = Some sX
          ∧ df_get output c
            = Some (mkSeries Int64
                      (code_of (np_unique (s_values sT)) <$> s_values sX)).
Proof.
  intros cols Hall Hseen. subst cols.
  set (cols := default (df_columns T) columns) in *.
  destruct (EncodeCategorical_fit_Some columns T target Hall)
    as (encs & Hfit & Hencs).
  fold cols in Hfit, Hencs.
  assert (∀ c enc, encs !! c = Some enc →
            ∃ sT sX, df_get T c = Some sT ∧ df_get X c = Some sX
                     ∧ enc = LabelEncoder.fit (s_values sT)
                     ∧ EncodeCategorical.encode_column enc X c
                       = Some (mkSeries Int64
                                 (code_of (np_unique (s_values sT))
                                  <$> s_values sX))) as Hcol.
  { intros c enc Hc. rewrite Hencs in Hc.
    destruct (decide (c ∈ cols)) as [Hin|]; [|done].
    destruct (Hseen c Hin) as (sT & sX & HsT & HsX & Hsub).
    rewrite HsT in Hc. injection Hc as <-.
    exists sT, sX. split_and!; [done..|].
    unfold EncodeCategorical.encode_column. rewrite HsX. simpl.
    rewrite LabelEncoder_transform_Some; [done|]. simpl.
    apply Forall_forall. intros v Hv. by apply elem_of_np_unique, Hsub. }
  destruct (EncodeCategorical_transform_Some
              (EncodeCategorical.mk (Some cols) (Some encs)) encs X eq_refl)
    as (output & Htr & Hcols & Hget).
  { intros c enc Hc. destruct (Hcol c enc Hc) as (? & ? & _ & _ & _ & ->).
    by eexists. }
  eexists _, output. split_and!; [done..| |].
  - intros c Hc. rewrite Hget, Hencs. by rewrite decide_False.
  - intros c Hc. destruct (Hseen c Hc) as (sT & sX & HsT & HsX & _).
    exists sT, sX. split_and!; [done..|].
    rewrite Hget. destruct (encs !! c) as [enc|] eqn:Henc.
    + destruct (Hcol c enc Henc) as (sT' & sX' & HsT' & HsX' & _ & ->).
      rewrite HsT in HsT'. rewrite HsX in HsX'.
      injection HsT' as <-. by injection HsX' as <-.
    + rewrite Hencs, decide_True, HsT in Henc by done. done.
Qed.

Lemma encoder_encodes_with_training_codes_witness :
  let T : DataFrame :=
    [ ("sex", mkSeries Object [Str " Male"; Str " Female"; Str " Male"]) ] in
  let X : DataFrame :=
    [ ("age", mkSeries Int64 [Num 25]);
      ("sex", mkSeries Object [Str " Male"]) ] in
  ∃ self output,
    EncodeCategorical.fit (EncodeCategorical.init None) T None = Some self
    ∧ EncodeCategorical.transform self X = Some output
    ∧ df_columns output = df_columns X
    ∧ (∀ c, c ∉ df_columns T → df_get output c = df_get X c)
    ∧ ∀ c, c ∈ df_columns T →
        ∃ sT sX,
          df_get T c = Some sT ∧ df_get X c = Some sX
          ∧ df_get output c
            = Some (mkSeries Int64
                      (code_of (np_unique (s_values sT)) <$> s_values sX)).
Proof.
  intros T X. apply (encoder_encodes_with_training_codes None T X None).
  - apply (bool_decide_unpack _). vm_compute. exact I.
  - intros c Hc. apply list_elem_of_singleton in Hc as ->.
    exists (mkSeries Object [Str " Male"; Str " Female"; Str " Male"]),
           (mkSeries Object [Str " Male"]).
    split_and!; [reflexivity|reflexivity|].
    intros v Hv. apply list_elem_of_singleton in Hv as ->. by left.
Defined.

(** ** Ties in the imputer's statistic *)

Lemma stats_mode_fold_least (a l : list cell) :
  StronglySorted cell_lt l →
  ∀ old : cell * nat,
  let r := foldl (λ (old : cell * nat) score,
                    let counts := Imputer.count score a in
                    if decide (old.2 < counts) then (score, counts) else old)
                 old l in
  r = old
  ∨ (r.1 ∈ l ∧ old.2 < r.2
     ∧ ∀ w, w ∈ l → cell_lt w r.1 → Imputer.count w a < r.2).
Proof.
  induction 1 as [|x l Hl IH Hx]; intros old; [by left|].
  cbn [foldl].
  match goal with
  | |- context [foldl ?f ?o l] => set (old' := o); specialize (IH old')
  end.
  assert (old'.2 = Imputer.count x a ∧ old'.1 = x ∧ old.2 < Imputer.count x a
          ∨ old' = old ∧ Imputer.count x a ≤ old.2) as Hold'.
  { unfold old'. simpl.
    destruct (decide (old.2 < Imputer.count x a)); [left|right]; simpl;
      split_and?; done || lia. }
  cbv zeta in IH. cbv zeta. clearbody old'.
  set (r := foldl _ old' l) in *. clearbody r.
  destruct IH as [Heq|(Hin & Hlt & Hleast)].
  - rewrite Heq. destruct Hold' as [(H2 & H1 & Hgt)|[-> _]]; [|by left].
    right. rewrite H1, H2. split_and!; [by left|done|].
    intros w Hw Hwx. exfalso. apply elem_of_cons in Hw as [->|Hw].
    + by apply cell_lt_irrefl in Hwx.
    + rewrite Forall_forall in Hx. apply (cell_lt_irrefl x).
      etrans; [by apply Hx|done].
  - right. split_and!; [by right|destruct Hold' as [(?&?&?)|[-> ?]]; lia|].
    intros w Hw Hwr. apply elem_of_cons in Hw as [->|Hw]; [|by apply Hleast].
    destruct Hold' as [(?&?&?)|[Heq ?]]; [lia|]. rewrite Heq in Hlt. lia.
Qed.

(** Among the observed values of a column that occur most often the
    statistic is the smallest: no observed value that occurs as often as the
    statistic is smaller than it. *)
Theorem imputer_statistic_ties_to_smallest
    (self : Imputer.t) (column : list cell) (value w : cell) :
  Imputer.statistic self column = Some value →
  w ∈ column →
  w ≠ Num (Imputer.missing_values self) →
  Imputer.count w column = Imputer.count value column →
  ¬ cell_lt w value.
Proof.
  unfold Imputer.statistic, Imputer.is_missing.
  set (obs := filter _ column). intros Hstat Hw Hwne Hcount Hlt.
  assert (w ∈ obs) as Hwobs.
  { apply list_elem_of_filter. split; [by apply bool_decide_eq_false|done]. }
  unfold Imputer.most_frequent in Hstat.
  destruct obs as [|x obs'] eqn:Hobs; [by apply elem_of_nil in Hwobs|].
  rewrite <-Hobs in *. unfold Imputer.stats_mode in Hstat.
  pose proof (stats_mode_fold_least obs (np_unique obs)
                (np_unique_sorted obs) (Num 0, 0)) as Hleast.
  simpl in Hleast.
  destruct (stats_mode_fold obs (np_unique obs) (Num 0, 0)) as (_ & _ & Hres).
  destruct (foldl _ _ _) as [v n]. simpl in *.
  destruct (decide (n = 0)) as [|Hn]; [done|]. injection Hstat as ->.
  destruct Hleast as [[= _ ->]|(_ & _ & Hleast)]; [done|].
  destruct Hres as [[= _ ->]|[Hin ->]]; [done|].
  assert (value ∈ obs) as Hvobs by by apply elem_of_np_unique.
  assert (value ≠ Num (Imputer.missing_values self)) as Hvne.
  { unfold obs in Hvobs. apply list_elem_of_filter in Hvobs as [Hv _].
    by apply bool_decide_eq_false in Hv. }
  specialize (Hleast w (proj2 (elem_of_np_unique w obs) Hwobs) Hlt).
  unfold obs in Hleast. rewrite !count_filter_ne in Hleast by done. lia.
Qed.

Lemma imputer_statistic_ties_to_smallest_witness :
  ¬ cell_lt (Num 4) (Num 2).
Proof.
  apply (imputer_statistic_ties_to_smallest (Imputer.mk 0 None)
           [Num 4; Num 0; Num 2; Num 4; Num 2] (Num 2) (Num 4)).
  - vm_compute. reflexivity.
  - apply (bool_decide_unpack _). vm_compute. exact I.
  - discriminate.
  - reflexivity.
Defined.

(** ** The frame that [predict] hands to the model *)

Lemma df_get_fmap_Some (h : cell → Series) (l : list (string * cell)) c v :
  NoDup l.*1 → (c, v) ∈ l →
  df_get ((λ kv : string * cell, (kv.1, h kv.2)) <$> l) c = Some (h v).
Proof.
  induction l as [|[c0 v0] l IH]; intros Hnd Hin; [by apply elem_of_nil in Hin|].
  rewrite fmap_cons in Hnd. apply NoDup_cons in Hnd as [Hc0 Hnd].
  rewrite fmap_cons. simpl. apply elem_of_cons in Hin as [[= -> ->]|Hin].
  - by rewrite decide_True.
  - rewrite decide_False; [by apply IH|]. intros ->. apply Hc0.
    by apply (list_elem_of_fmap_2 fst l (c, v)).
Qed.

Lemma df_get_fmap_None (h : cell → Series) (l : list (string * cell)) c :
  c ∉ l.*1 →
  df_get ((λ kv : string * cell, (kv.1, h kv.2)) <$> l) c = None.
Proof.
  induction l as [|[c0 v0] l IH]; intros Hnin; [done|].
  rewrite fmap_cons in Hnin. rewrite fmap_cons. simpl.
  rewrite not_elem_of_cons in Hnin. destruct Hnin as [Hne Hnin].
  rewrite decide_False by done. by apply IH.
Qed.

(** The one-row frame built from the dictionary [data] has the keys of
    [data] as its columns, each once and in increasing order of the names,
    whatever the order in which the features were asked; each column holds
    the one value stored under its name. *)
Theorem row_frame_columns_sorted (data : gmap string cell) :
  StronglySorted String.le (df_columns (row_frame data))
  ∧ NoDup (df_columns (row_frame data))
  ∧ (∀ c, c ∈ df_columns (row_frame data) ↔ is_Some (data !! c))
  ∧ ∀ c, df_get (row_frame data) c
         = (λ v, mkSeries (match v with Num _ => Int64 | Str _ => Object end)
                          [v]) <$> data !! c.
Proof.
  set (R := λ kv kv' : string * cell, String.le kv.1 kv'.1).
  assert (Transitive R) as HRt by (intros x y z; unfold R; apply transitivity).
  assert (Total R) as HRtot by (intros x y; unfold R; apply total, _).
  set (l := merge_sort R (map_to_list data)).
  assert (StronglySorted R l) as Hsorted.
  { apply StronglySorted_merge_sort; done. }
  assert (l ≡ₚ map_to_list data) as Hperm.
  { apply merge_sort_Permutation. }
  assert (df_columns (row_frame data) = l.*1) as Hcols.
  { unfold df_columns, row_frame. fold R l. rewrite <-list_fmap_compose.
    by apply list_fmap_ext. }
  assert (NoDup l.*1) as Hnd.
  { rewrite Hperm. apply NoDup_fst_map_to_list. }
  assert (∀ c v, (c, v) ∈ l ↔ data !! c = Some v) as Hin.
  { intros c v. rewrite Hperm. apply elem_of_map_to_list. }
  rewrite Hcols. split_and!.
  - clear -Hsorted. induction Hsorted as [|kv l' _ IH Hall]; [constructor|].
    rewrite fmap_cons. constructor; [done|].
    apply Forall_fmap. eapply Forall_impl; [exact Hall|]. done.
  - done.
  - intros c. rewrite list_elem_of_fmap. split.
    + intros ([c' v] & -> & Hcv). apply Hin in Hcv. by eexists.
    + intros [v Hv]. exists (c, v). split; [done|]. by apply Hin.
  - intros c. unfold row_frame. fold R l.
    destruct (data !! c) as [v|] eqn:Hc; simpl.
    + apply (df_get_fmap_Some
               (λ v, mkSeries (match v with Num _ => Int64 | Str _ => Object end)
                              [v])); [done|]. by apply Hin.
    + apply (df_get_fmap_None
               (λ v, mkSeries (match v with Num _ => Int64 | Str _ => Object end)
                              [v])).
      intros ([c' v] & -> & Hcv)%list_elem_of_fmap.
      apply Hin in Hcv. simpl in Hc. congruence.
Qed.

Example row_frame_example :
  df_columns (row_frame (<["sex" := Str " Male"]>
                           (<["fnlwgt" := Num 189778]>
                              (<["age" := Str " 39"]> ∅))))
  = ["age"; "fnlwgt"; "sex"].
Proof. by vm_compute. Qed.
